(** * Request orchestration of the Gemini image / video front end

    Shallow embedding of [src/services/geminiService.ts] (the two entry
    points [generateImages] and [generateVideo], with the credential gate
    [ensureApiKey]) and of the caller [VideoGenerator.handleGenerate].

    Conventions of the embedding.
    - An optional JavaScript property ([width?: number], a field the SDK may
      leave out) is an [option]; [undefined] is [None].
    - A JavaScript number that holds an integer is a [Z]; the template
      literal [`${n}`] of such a number is its decimal numeral ([pretty]).
    - An [async] function is a value of type [run A]: the effects it
      performed, in order, and how its promise ends (fulfilled, rejected, or
      still pending when the backend has nothing more to say).
    - The outside world (the AI Studio host, [process.env], the replies of
      the backend) is a record [world] that the entry points read. *)

From Stdlib Require Import ZArith.
From stdpp Require Import base option list strings pretty.

Local Open Scope string_scope.
Local Open Scope list_scope.
Local Open Scope Z_scope.

(** ** Enumerations of [types.ts] *)

Inductive AspectRatio := SQUARE | STANDARD | LANDSCAPE | PORTRAIT | CUSTOM.

(** The string value of an enum member ([options.aspectRatio as string]). *)
Definition AspectRatio_value (a : AspectRatio) : string :=
  match a with
  | SQUARE => "1:1"
  | STANDARD => "4:3"
  | LANDSCAPE => "16:9"
  | PORTRAIT => "9:16"
  | CUSTOM => "CUSTOM"
  end.

Inductive ImageResolution := RES_1K | RES_2K | RES_4K.

Definition ImageResolution_value (r : ImageResolution) : string :=
  match r with RES_1K => "1K" | RES_2K => "2K" | RES_4K => "4K" end.

Inductive VideoResolution := RES_720P | RES_1080P.

(** The literal type ['16:9' | '9:16'] of [GenerateVideoOptions]. *)
Inductive VideoAspect := WIDE_16_9 | TALL_9_16.

Definition VideoAspect_value (a : VideoAspect) : string :=
  match a with WIDE_16_9 => "16:9" | TALL_9_16 => "9:16" end.

#[global] Instance ImageResolution_eq_dec : EqDecision ImageResolution.
Proof. solve_decision. Defined.

#[global] Instance AspectRatio_eq_dec : EqDecision AspectRatio.
Proof. solve_decision. Defined.

(** ** Models *)

Definition MODEL_NANO_BANANA : string := "gemini-2.5-flash-image".
Definition MODEL_PRO_IMAGE : string := "gemini-3-pro-image-preview".
Definition MODEL_VEO_FAST : string := "veo-3.1-fast-generate-preview".

(** ** JavaScript truthiness, for the values the service tests *)

Definition truthy_string (s : string) : bool := negb (bool_decide (s = EmptyString)).

Definition truthy_opt_string (o : option string) : bool :=
  match o with Some s => truthy_string s | None => false end.

(** A number is falsy when it is [0] (or [undefined]). *)
Definition truthy_opt_number (o : option Z) : bool :=
  match o with Some n => negb (n =? 0) | None => false end.

Definition truthy_opt_bool (o : option bool) : bool :=
  match o with Some b => b | None => false end.

(** [a || b] on strings. *)
Definition or_string (a : option string) (b : string) : string :=
  match a with
  | Some s => if truthy_string s then s else b
  | None => b
  end.

(** [`${x}`] for a possibly undefined string. *)
Definition template_opt_string (o : option string) : string :=
  match o with Some s => s | None => "undefined" end.

(** [`${n}`] for a possibly undefined number. The numbers of the model are
    integers, and the template literal of an integer is taken to be its
    decimal numeral. JavaScript agrees on the safe integers ([safe_integer]
    below); beyond them not every integer is a number, and from [10^21] on
    the literal is in exponent form. What is proved of the digits of a ratio
    string is therefore stated for safe integers. *)
Definition template_opt_number (o : option Z) : string :=
  match o with Some n => pretty n | None => "undefined" end.

(** [Number.MAX_SAFE_INTEGER], [2^53 - 1]. *)
Definition MAX_SAFE_INTEGER : Z := 9007199254740991.

(** An integer that is a JavaScript number printed digit for digit. *)
Definition safe_integer (n : Z) : Prop :=
  - MAX_SAFE_INTEGER ≤ n ≤ MAX_SAFE_INTEGER.

(** The largest length of an array, [2^32 - 1]; [Array.from({ length })]
    throws a [RangeError] above it. *)
Definition MAX_ARRAY_LENGTH : Z := 4294967295.

(** ** Data exchanged with the caller *)

(** [{ base64: string; mimeType: string }] *)
Module ImageData.
Record t := { base64 : string; mimeType : string }.
End ImageData.

Module GenerateImageOptions.
Record t := {
  prompt : string;
  aspectRatio : AspectRatio;
  width : option Z;
  height : option Z;
  resolution : ImageResolution;
  refImages : list ImageData.t;
  contextImage : option ImageData.t;
  isEditing : option bool
}.
End GenerateImageOptions.

Module GenerateVideoOptions.
Record t := {
  prompt : string;
  inputImage : option ImageData.t;
  aspectRatio : VideoAspect
}.
End GenerateVideoOptions.

(** ** Data exchanged with the backend (the shapes of [@google/genai]) *)

Module Blob.
Record t := { data : option string; mimeType : option string }.
End Blob.

Module Part.
Record t := { text : option string; inlineData : option Blob.t }.
End Part.

Module Content.
Record t := { parts : option (list Part.t) }.
End Content.

Module Candidate.
Record t := { content : option Content.t }.
End Candidate.

Module GenerateContentResponse.
Record t := { candidates : option (list Candidate.t) }.
End GenerateContentResponse.

Module ImageConfig.
Record t := { aspectRatio : string; imageSize : option ImageResolution }.
End ImageConfig.

Module GenerateContentConfig.
Record t := { imageConfig : ImageConfig.t }.
End GenerateContentConfig.

Module GenerateContentParameters.
Record t := {
  model : string;
  contents : list Part.t;  (* [contents: { parts }] *)
  config : GenerateContentConfig.t
}.
End GenerateContentParameters.

Module VideoConfig.
Record t := {
  numberOfVideos : Z;
  resolution : VideoResolution;
  aspectRatio : VideoAspect
}.
End VideoConfig.

Module VideoImage.
Record t := { imageBytes : string; mimeType : string }.
End VideoImage.

Module VideoPayload.
Record t := {
  model : string;
  prompt : string;
  config : VideoConfig.t;
  image : option VideoImage.t
}.
End VideoPayload.

Module Video.
Record t := { uri : option string }.
End Video.

Module GeneratedVideo.
Record t := { video : option Video.t }.
End GeneratedVideo.

Module GenerateVideosResponse.
Record t := { generatedVideos : option (list GeneratedVideo.t) }.
End GenerateVideosResponse.

(** The handle of the asynchronous video job. *)
Module Operation.
Record t := {
  name : string;
  done : option bool;
  response : option GenerateVideosResponse.t
}.
End Operation.

(** ** Effects: errors, promises and the observable trace *)

(** A thrown value: [new Error(message)] raised by the service itself, or
    whatever a rejected backend call carries. *)
Inductive js_error :=
  | Error (message : string)
  | ServiceFailure (detail : string).

(** How the promise of one backend call ends. *)
Inductive reply (A : Type) :=
  | Resolves (a : A)
  | Rejects (e : js_error).
Arguments Resolves {A} a.
Arguments Rejects {A} e.

(** How the promise of an [async] function ends. [Pending] is a promise that
    is still waiting when the backend has delivered all it will deliver. *)
Inductive outcome (A : Type) :=
  | Fulfilled (a : A)
  | Rejected (e : js_error)
  | Pending.
Arguments Fulfilled {A} a.
Arguments Rejected {A} e.
Arguments Pending {A}.

(** The calls one run of the credential gate makes on [window.aistudio]. *)
Inductive aistudio_call :=
  | HasSelectedApiKey (answer : bool)
  | OpenSelectKey.

(** One effect of the service, as the outside world observes it. A completed
    run of [ensureApiKey] is one event, which carries the host calls it
    made. *)
Inductive event :=
  | EnsureApiKey (calls : list aistudio_call)
  | GenerateContent (params : GenerateContentParameters.t)
  | GenerateVideos (payload : VideoPayload.t)
  | SetTimeout (ms : Z)
  | GetVideosOperation (operation : Operation.t)
  | ConsoleError (label : string) (e : js_error).

Record run (A : Type) := Run { trace : list event; result : outcome A }.
Arguments Run {A} trace result.
Arguments trace {A} r.
Arguments result {A} r.

#[global] Instance run_ret : MRet run := λ A a, Run [] (Fulfilled a).

#[global] Instance run_bind : MBind run := λ A B k m,
  match result m with
  | Fulfilled a => Run (trace m ++ trace (k a)) (result (k a))
  | Rejected e => Run (trace m) (Rejected e)
  | Pending => Run (trace m) Pending
  end.

Definition perform (ev : event) : run unit := Run [ev] (Fulfilled tt).

Definition throw {A : Type} (e : js_error) : run A := Run [] (Rejected e).

Definition pending {A : Type} : run A := Run [] Pending.

(** [await p] for the promise of a backend call. *)
Definition await {A : Type} (r : reply A) : run A :=
  match r with
  | Resolves a => mret a
  | Rejects e => throw e
  end.

(** [try { body } catch (e) { handler e }] *)
Definition try_catch {A : Type} (body : run A) (handler : js_error → run A) : run A :=
  match result body with
  | Rejected e => Run (trace body ++ trace (handler e)) (result (handler e))
  | _ => body
  end.

(** ** The outside world *)

(** [window.aistudio], when the host provides it. Its two calls are taken
    to complete: [hasSelectedApiKey] answers, and the selection dialog of
    [openSelectKey] is eventually closed. *)
Module AiStudio.
Record t := { hasSelectedApiKey : bool }.
End AiStudio.

Record world := {
  (* [window.aistudio] *)
  aistudio : option AiStudio.t;
  (* [process.env.API_KEY] *)
  API_KEY : option string;
  (* the replies to the [generateContent] calls, in the order in which they
     arrive, each with the index of the call it answers; a call without an
     entry is never answered *)
  image_replies : list (nat * reply GenerateContentResponse.t);
  (* the successive job handles: the reply to [generateVideos], then the
     reply to each [getVideosOperation]; when the list ends the backend
     answers no more *)
  video_replies : list (reply Operation.t)
}.

(** new GoogleGenAI({ apiKey }) *)
Record GoogleGenAI := { apiKey : option string }.

(** ** The credential gate *)

Definition ensureApiKey (w : world) : run unit :=
  match aistudio w with
  | Some win_aistudio =>
      let hasKey := AiStudio.hasSelectedApiKey win_aistudio in
      if negb hasKey
      then perform (EnsureApiKey [HasSelectedApiKey hasKey; OpenSelectKey])
      else perform (EnsureApiKey [HasSelectedApiKey hasKey])
  | None => perform (EnsureApiKey [])
  end.

Definition getClient (w : world) : GoogleGenAI := {| apiKey := API_KEY w |}.

(** ** Image generation: what one call sends *)

(** [{ inlineData: { data: img.base64, mimeType: img.mimeType } }] *)
Definition inline_part (img : ImageData.t) : Part.t :=
  {| Part.text := None;
     Part.inlineData :=
       Some {| Blob.data := Some (ImageData.base64 img);
               Blob.mimeType := Some (ImageData.mimeType img) |} |}.

(** [{ text: options.prompt }] *)
Definition text_part (s : string) : Part.t :=
  {| Part.text := Some s; Part.inlineData := None |}.

(** [parts.push(x)] *)
Definition push {A : Type} (parts : list A) (x : A) : list A := parts ++ [x].

(** The [parts] array of one call: the reference images are pushed by the
    [forEach], then the context image, then the prompt. *)
Definition build_parts (options : GenerateImageOptions.t) : list Part.t :=
  let parts := [] in
  let parts :=
    fold_left (λ parts img, push parts (inline_part img))
              (GenerateImageOptions.refImages options) parts in
  let parts :=
    match GenerateImageOptions.contextImage options with
    | Some contextImage => push parts (inline_part contextImage)
    | None => parts
    end in
  push parts (text_part (GenerateImageOptions.prompt options)).

(** Config logic for the aspect ratio. *)
Definition ratioStr (options : GenerateImageOptions.t) : string :=
  let ratioStr := AspectRatio_value (GenerateImageOptions.aspectRatio options) in
  if decide (GenerateImageOptions.aspectRatio options = CUSTOM) then
    if truthy_opt_number (GenerateImageOptions.width options)
       && truthy_opt_number (GenerateImageOptions.height options)
    then template_opt_number (GenerateImageOptions.width options)
           +:+ ":" +:+ template_opt_number (GenerateImageOptions.height options)
    else "1:1"
  else ratioStr.

(** [options.resolution !== ImageResolution.RES_1K] *)
Definition usePro (options : GenerateImageOptions.t) : bool :=
  bool_decide (GenerateImageOptions.resolution options ≠ RES_1K).

(** [usePro ? MODEL_PRO_IMAGE : MODEL_NANO_BANANA] *)
Definition modelName (usePro : bool) : string :=
  if usePro then MODEL_PRO_IMAGE else MODEL_NANO_BANANA.

(** The [config] object; [imageSize] is assigned only under [usePro]. *)
Definition build_config (usePro : bool) (options : GenerateImageOptions.t)
  : GenerateContentConfig.t :=
  let config :=
    {| GenerateContentConfig.imageConfig :=
         {| ImageConfig.aspectRatio := ratioStr options;
            ImageConfig.imageSize := None |} |} in
  if usePro then
    {| GenerateContentConfig.imageConfig :=
         {| ImageConfig.aspectRatio :=
              ImageConfig.aspectRatio (GenerateContentConfig.imageConfig config);
            ImageConfig.imageSize := Some (GenerateImageOptions.resolution options) |} |}
  else config.

(** The argument of [client.models.generateContent]. *)
Definition build_params (modelName : string) (usePro : bool)
    (options : GenerateImageOptions.t) : GenerateContentParameters.t :=
  {| GenerateContentParameters.model := modelName;
     GenerateContentParameters.contents := build_parts options;
     GenerateContentParameters.config := build_config usePro options |}.

(** ** Image generation: what one call makes of the response *)

(** [response.candidates?.[0]?.content?.parts] *)
Definition first_candidate_parts (response : GenerateContentResponse.t) : option (list Part.t) :=
  candidates ← GenerateContentResponse.candidates response;
  candidate ← head candidates;
  content ← Candidate.content candidate;
  Content.parts content.

(** [part.inlineData && part.inlineData.data] *)
Definition has_inline_data (part : Part.t) : bool :=
  match Part.inlineData part with
  | Some inlineData => truthy_opt_string (Blob.data inlineData)
  | None => false
  end.

(** The data URL built from a part that passed [has_inline_data]. *)
Definition data_url (part : Part.t) : string :=
  match Part.inlineData part with
  | Some inlineData =>
      "data:" +:+ or_string (Blob.mimeType inlineData) "image/png"
        +:+ ";base64," +:+ template_opt_string (Blob.data inlineData)
  | None => EmptyString
  end.

(** The [for ... of] loop with its early [return]. *)
Fixpoint scan_parts (parts : list Part.t) : option string :=
  match parts with
  | [] => None
  | part :: later =>
      if has_inline_data part then Some (data_url part) else scan_parts later
  end.

Definition NO_IMAGE_DATA : js_error := Error "No image data found in response".

(** The statements after [await client.models.generateContent(...)]. *)
Definition extract_image (response : GenerateContentResponse.t) : run string :=
  match first_candidate_parts response with
  | Some parts =>
      match scan_parts parts with
      | Some url => mret url
      | None => throw NO_IMAGE_DATA
      end
  | None => throw NO_IMAGE_DATA
  end.

(** ** Concurrent calls and [Promise.all] *)

(** An [async] callback that has run up to its [await]: the effects of the
    synchronous part, and what it does once the awaited reply arrives. *)
Record async (R A : Type) := Async { issued : list event; resume : reply R → run A }.
Arguments Async {R A} issued resume.
Arguments issued {R A} a.
Arguments resume {R A} a r.

(** The rest of the callback's [try] block once the reply is there, with its
    [catch] that logs and rethrows. *)
Definition on_reply (r : reply GenerateContentResponse.t) : run string :=
  try_catch (response ← await r; extract_image response)
            (λ e, perform (ConsoleError "Image generation failed" e);; throw e).

(** The callback of [Array.from({ length: count }).map(async () => ...)]. *)
Definition image_call (client : GoogleGenAI) (modelName : string) (usePro : bool)
    (options : GenerateImageOptions.t) : async GenerateContentResponse.t string :=
  Async [GenerateContent (build_params modelName usePro options)] on_reply.

(** What the callbacks log as the replies arrive, in arrival order. *)
Definition settle_trace {R A : Type} (calls : list (async R A))
    (arrivals : list (nat * reply R)) : list event :=
  flat_map (λ '(i, r), match calls !! i with
                       | Some c => trace (resume c r)
                       | None => []
                       end) arrivals.

(** The promise of [Promise.all]: [values] are the slots filled so far and
    [remaining] counts the promises not yet fulfilled. The first rejection
    settles it; the last fulfilment resolves it with all the values. *)
Fixpoint all_settle {R A : Type} (calls : list (async R A))
    (arrivals : list (nat * reply R)) (values : list (option A)) (remaining : nat)
  : outcome (list A) :=
  match arrivals with
  | [] => Pending
  | (i, r) :: later =>
      match calls !! i with
      | Some c =>
          match result (resume c r) with
          | Fulfilled v =>
              let values := <[i:=Some v]> values in
              let remaining := (remaining - 1)%nat in
              if (remaining =? 0)%nat then Fulfilled (omap id values)
              else all_settle calls later values remaining
          | Rejected e => Rejected e
          | Pending => all_settle calls later values remaining
          end
      | None => all_settle calls later values remaining
      end
  end.

(** [map] runs the synchronous part of every callback, in index order. *)
Definition start_all {R A : Type} (calls : list (async R A)) : run unit :=
  Run (flat_map issued calls) (Fulfilled ()).

Definition Promise_all {R A : Type} (calls : list (async R A))
    (arrivals : list (nat * reply R)) : run (list A) :=
  Run (settle_trace calls arrivals)
      (match calls with
       | [] => Fulfilled []
       | _ => all_settle calls arrivals (replicate (length calls) None) (length calls)
       end).

(** ** [generateImages] *)

(** [Array.from({ length: count })] is the list of the indices below
    [count], empty when [count] is not positive. The model covers the counts
    up to [MAX_ARRAY_LENGTH]; above it the source throws a [RangeError]
    before any call, a path that is not modelled. *)
Definition generateImages (w : world) (count : Z) (options : GenerateImageOptions.t)
  : run (list string) :=
  let usePro := usePro options in
  (if usePro then ensureApiKey w else mret ());;
  let client := getClient w in
  let modelName := modelName usePro in
  let promises :=
    map (λ _, image_call client modelName usePro options) (seq 0 (Z.to_nat count)) in
  start_all promises;;
  Promise_all promises (image_replies w).

(** A well-formed arrival sequence for [count] calls: every reply answers
    one of the calls, and no call is answered twice. *)
Definition arrivals_ok {R : Type} (count : nat) (arrivals : list (nat * reply R)) : Prop :=
  NoDup arrivals.*1 ∧ Forall (λ i, (i < count)%nat) arrivals.*1.

(** ** [generateVideo] *)

(** The payload of [client.models.generateVideos]. *)
Definition video_payload (options : GenerateVideoOptions.t) : VideoPayload.t :=
  let config :=
    {| VideoConfig.numberOfVideos := 1;
       VideoConfig.resolution := RES_720P;
       VideoConfig.aspectRatio := GenerateVideoOptions.aspectRatio options |} in
  let payload :=
    {| VideoPayload.model := MODEL_VEO_FAST;
       VideoPayload.prompt := GenerateVideoOptions.prompt options;
       VideoPayload.config := config;
       VideoPayload.image := None |} in
  match GenerateVideoOptions.inputImage options with
  | Some inputImage =>
      {| VideoPayload.model := VideoPayload.model payload;
         VideoPayload.prompt := VideoPayload.prompt payload;
         VideoPayload.config := VideoPayload.config payload;
         VideoPayload.image :=
           Some {| VideoImage.imageBytes := ImageData.base64 inputImage;
                   VideoImage.mimeType := ImageData.mimeType inputImage |} |}
  | None => payload
  end.

(** [operation.response?.generatedVideos?.[0]?.video?.uri] *)
Definition primary_video_uri (operation : Operation.t) : option string :=
  response ← Operation.response operation;
  generatedVideos ← GenerateVideosResponse.generatedVideos response;
  first ← head generatedVideos;
  video ← GeneratedVideo.video first;
  Video.uri video.

(** The poll interval, in milliseconds. *)
Definition POLL_INTERVAL : Z := 5000.

(** [while (!operation.done) { sleep; operation = await getVideosOperation }],
    driven by the replies the backend still has. *)
Fixpoint poll (operation : Operation.t) (replies : list (reply Operation.t))
  : run Operation.t :=
  if negb (truthy_opt_bool (Operation.done operation)) then
    perform (SetTimeout POLL_INTERVAL);;
    perform (GetVideosOperation operation);;
    match replies with
    | [] => pending
    | r :: later => operation ← await r; poll operation later
    end
  else mret operation.

Definition generateVideo (w : world) (options : GenerateVideoOptions.t) : run string :=
  ensureApiKey w;;
  let client := getClient w in
  let payload := video_payload options in
  try_catch
    (perform (GenerateVideos payload);;
     match video_replies w with
     | [] => pending
     | r :: polls =>
         operation ← await r;
         operation ← poll operation polls;
         let videoUri := primary_video_uri operation in
         if negb (truthy_opt_string videoUri) then
           throw (Error "No video URI in response")
         else
           mret (template_opt_string videoUri +:+ "&key="
                   +:+ template_opt_string (API_KEY w))
     end)
    (λ e, perform (ConsoleError "Video generation failed" e);; throw e).

(** ** The caller: [VideoGenerator.handleGenerate] *)

(** The component state that [handleGenerate] reads. *)
Module VideoGenerator.
Record t := {
  prompt : string;
  inputImage : option ImageData.t;  (* [null] is [None] *)
  aspectRatio : VideoAspect
}.
End VideoGenerator.

Definition FALLBACK_PROMPT : string := "Animate this image".

(** The options object passed to [generateVideo]. *)
Definition handleGenerate_options (state : VideoGenerator.t) : GenerateVideoOptions.t :=
  {| GenerateVideoOptions.prompt :=
       or_string (Some (VideoGenerator.prompt state)) FALLBACK_PROMPT;
     GenerateVideoOptions.inputImage := VideoGenerator.inputImage state;
     GenerateVideoOptions.aspectRatio := VideoGenerator.aspectRatio state |}.

(** The service call of [handleGenerate]. *)
Definition handleGenerate (w : world) (state : VideoGenerator.t) : run string :=
  generateVideo w (handleGenerate_options state).

(** The prompt of the video request as the data model of the specification
    words it: the fixed fallback when the prompt is empty and an input image
    is supplied, the caller's prompt otherwise. Stated next to the code, to
    be compared with what [handleGenerate] submits. *)
Definition described_prompt (state : VideoGenerator.t) : string :=
  match VideoGenerator.inputImage state with
  | Some _ =>
      if bool_decide (VideoGenerator.prompt state = EmptyString)
      then FALLBACK_PROMPT
      else VideoGenerator.prompt state
  | None => VideoGenerator.prompt state
  end.

(** ** Observations on a trace *)

(** The arguments of the [generateContent] calls of a trace, in order. *)
Definition requests_of (t : list event) : list GenerateContentParameters.t :=
  omap (λ ev, match ev with GenerateContent params => Some params | _ => None end) t.

(** The payloads of the [generateVideos] calls of a trace, in order. *)
Definition payloads_of (t : list event) : list VideoPayload.t :=
  omap (λ ev, match ev with GenerateVideos payload => Some payload | _ => None end) t.

Definition is_gate (ev : event) : bool :=
  match ev with EnsureApiKey _ => true | _ => false end.

(** How many times the credential gate ran. *)
Definition gate_runs (t : list event) : nat := length (filter is_gate t).

(** How one image call ends, given the reply to its backend call. *)
Definition call_result (r : reply GenerateContentResponse.t) : outcome string :=
  result (on_reply r).

(** No part of the list carries inline image data. *)
Definition no_inline_data (parts : list Part.t) : Prop :=
  Forall (λ part, has_inline_data part = false) parts.

(** The run of a call whose response holds no image: the [catch] logs the
    error and rethrows it. *)
Definition NO_IMAGE_RUN : run string :=
  Run [ConsoleError "Image generation failed" NO_IMAGE_DATA] (Rejected NO_IMAGE_DATA).

(** A reply that answers one of [count] calls and makes it succeed. *)
Definition fulfilled_in_range (count : nat)
    (a : nat * reply GenerateContentResponse.t) : Prop :=
  (a.1 < count)%nat ∧ ∃ url, call_result a.2 = Fulfilled url.

(** A reply that makes its call fail. *)
Definition failing (a : nat * reply GenerateContentResponse.t) : Prop :=
  ∃ e, call_result a.2 = Rejected e.

(** The context image as a list of parts. *)
Definition context_parts (options : GenerateImageOptions.t) : list Part.t :=
  match GenerateImageOptions.contextImage options with
  | Some contextImage => [inline_part contextImage]
  | None => []
  end.

(** ** Sample data *)

Definition sample_image (payload mime : string) : ImageData.t :=
  {| ImageData.base64 := payload; ImageData.mimeType := mime |}.

Definition sample_options (ar : AspectRatio) (wd ht : option Z) (res : ImageResolution)
  : GenerateImageOptions.t :=
  {| GenerateImageOptions.prompt := "p";
     GenerateImageOptions.aspectRatio := ar;
     GenerateImageOptions.width := wd;
     GenerateImageOptions.height := ht;
     GenerateImageOptions.resolution := res;
     GenerateImageOptions.refImages :=
       [sample_image "QUFB" "image/png"; sample_image "QkJC" "image/jpeg"];
     GenerateImageOptions.contextImage := Some (sample_image "Q0ND" "image/webp");
     GenerateImageOptions.isEditing := None |}.

(** A response whose candidates each hold the given parts. *)
Definition response_of (candidates : list (list Part.t)) : GenerateContentResponse.t :=
  {| GenerateContentResponse.candidates :=
       Some (map (λ parts, {| Candidate.content :=
                                 Some {| Content.parts := Some parts |} |}) candidates) |}.

Definition image_part (payload : string) (mime : option string) : Part.t :=
  {| Part.text := None;
     Part.inlineData := Some {| Blob.data := Some payload; Blob.mimeType := mime |} |}.

Definition sample_world (host : option AiStudio.t)
    (images : list (nat * reply GenerateContentResponse.t))
    (videos : list (reply Operation.t)) : world :=
  {| aistudio := host; API_KEY := Some "KEY";
     image_replies := images; video_replies := videos |}.

Definition sample_operation (finished : option bool) (uri : option string) : Operation.t :=
  {| Operation.name := "operations/1";
     Operation.done := finished;
     Operation.response :=
       match uri with
       | Some u =>
           Some {| GenerateVideosResponse.generatedVideos :=
                     Some [ {| GeneratedVideo.video := Some {| Video.uri := Some u |} |} ] |}
       | None => None
       end |}.

(** The sleep/poll cycles of the video driver, one per handle polled. *)
Definition cycles (handles : list Operation.t) : list event :=
  flat_map (λ h, [SetTimeout POLL_INTERVAL; GetVideosOperation h]) handles.

(** [operation.done] as the loop tests it. *)
Definition is_done (operation : Operation.t) : bool :=
  truthy_opt_bool (Operation.done operation).

(** ** [utils/helpers.ts]: reading a file *)

From Stdlib Require Import Ascii.

(** [s.split(sep)] for a one-character separator. *)
Fixpoint split_on (sep : Ascii.ascii) (s : string) : list string :=
  match s with
  | EmptyString => [EmptyString]
  | String c s' =>
      if Ascii.eqb c sep then EmptyString :: split_on sep s'
      else match split_on sep s' with
           | piece :: pieces => String c piece :: pieces
           | [] => [String c EmptyString]
           end
  end.

(** How the [FileReader] ends: [onload] with [reader.result] (a string, or
    something that is not a string), or [onerror]. *)
Inductive reader_end :=
  | OnLoad (result : option string)
  | OnError (error : js_error).

(** The promise of [fileToBase64]; it resolves with [split(',')[1]], which
    is [undefined] when the result holds no comma. *)
Definition fileToBase64 (reader : reader_end) : outcome (option string) :=
  match reader with
  | OnLoad (Some result) =>
      let base64 := split_on ","%char result !! 1%nat in
      Fulfilled base64
  | OnLoad None => Rejected (Error "Failed to convert file to base64")
  | OnError error => Rejected error
  end.

(** ** [utils/helpers.ts]: saving a file *)

(** The four awaited calls of [saveToDirectory], in their order. *)
Inductive fs_step :=
  | GetFileHandle (filename : string)
  | CreateWritable
  | WriteBlob (blob : string)
  | CloseWritable.

(** A run of [saveToDirectory]: the calls made, the errors logged, and how
    its promise ends. *)
Record fs_run := FsRun {
  fs_steps : list fs_step;
  fs_logged : list js_error;
  fs_result : outcome bool
}.

(** The body of the [try]: each call is awaited before the next is made;
    [replies] holds the ends of their promises, in order. A rejection goes
    to the [catch], which logs it and returns [false]; after the last call
    the function returns [true]. *)
Fixpoint save_steps (steps : list fs_step) (replies : list (reply unit)) : fs_run :=
  match steps with
  | [] => FsRun [] [] (Fulfilled true)
  | step :: more =>
      match replies with
      | [] => FsRun [step] [] Pending
      | Resolves _ :: later =>
          let rest := save_steps more later in
          FsRun (step :: fs_steps rest) (fs_logged rest) (fs_result rest)
      | Rejects e :: _ => FsRun [step] [e] (Fulfilled false)
      end
  end.

Definition saveToDirectory (replies : list (reply unit)) (filename blob : string)
  : fs_run :=
  save_steps [GetFileHandle filename; CreateWritable; WriteBlob blob; CloseWritable]
             replies.

(** ** The image component [ImageGenerator]: its state *)

Module HistoryItem.
Record t := {
  id : string;
  base64 : string;
  mimeType : string;
  prompt : string;
  timestamp : Z;
  aspectRatio : string;
  width : option Z;
  height : option Z
}.
End HistoryItem.

(** A reference image of the component state: [{ base64, mimeType, id }]. *)
Module RefImage.
Record t := { base64 : string; mimeType : string; id : string }.
End RefImage.

Inductive ViewMode := VIEW_CURRENT | VIEW_HISTORY.

(** A directory handle of the File System Access API, as far as the
    component reads it. *)
Module DirHandle.
Record t := { name : string }.
End DirHandle.

(** The [useState] cells of the component. *)
Module ImageGenerator.
Record t := {
  prompt : string;
  aspectRatio : AspectRatio;
  resolution : ImageResolution;
  outputCount : Z;
  customWidth : Z;
  customHeight : Z;
  refImages : list RefImage.t;
  contextImage : option ImageData.t;  (* [null] is [None] *)
  isEditing : bool;
  loading : bool;
  currentBatch : list HistoryItem.t;
  history : list HistoryItem.t;
  viewMode : ViewMode;
  showCanvas : bool;
  tempContextImgSrc : string;
  dirHandle : option DirHandle.t;
  dirName : string
}.
End ImageGenerator.

(** ** [ImageGenerator.handleGenerate]: the request *)

(** [if (!prompt && !contextImage) return;] *)
Definition nothing_to_generate (state : ImageGenerator.t) : bool :=
  negb (truthy_string (ImageGenerator.prompt state))
  && negb (bool_decide (is_Some (ImageGenerator.contextImage state))).

(** The options object passed to [generateImages]. *)
Definition image_request (state : ImageGenerator.t) : GenerateImageOptions.t :=
  {| GenerateImageOptions.prompt := ImageGenerator.prompt state;
     GenerateImageOptions.aspectRatio := ImageGenerator.aspectRatio state;
     GenerateImageOptions.width := Some (ImageGenerator.customWidth state);
     GenerateImageOptions.height := Some (ImageGenerator.customHeight state);
     GenerateImageOptions.resolution := ImageGenerator.resolution state;
     GenerateImageOptions.refImages :=
       map (λ r, {| ImageData.base64 := RefImage.base64 r;
                    ImageData.mimeType := RefImage.mimeType r |})
           (ImageGenerator.refImages state);
     GenerateImageOptions.contextImage := ImageGenerator.contextImage state;
     GenerateImageOptions.isEditing := Some (ImageGenerator.isEditing state) |}.

(** The service call of [handleGenerate]: none when there is nothing to
    generate. *)
Definition image_handleGenerate (w : world) (state : ImageGenerator.t)
  : option (run (list string)) :=
  if nothing_to_generate state then None
  else Some (generateImages w (ImageGenerator.outputCount state) (image_request state)).

(** ** [ImageGenerator.handleGenerate]: the two regular expressions *)

(** [\w]: a letter, a digit or the underscore. *)
Definition is_word_char (c : Ascii.ascii) : bool :=
  let n := Ascii.N_of_ascii c in
  ((48 <=? n) && (n <=? 57) || (65 <=? n) && (n <=? 90)
   || (97 <=? n) && (n <=? 122) || (n =? 95))%N.

(** The rest of [s] after the literal [lit], when [s] starts with it. *)
Fixpoint strip_literal (lit s : string) : option string :=
  match lit with
  | EmptyString => Some s
  | String a lit' =>
      match s with
      | String b s' => if Ascii.eqb a b then strip_literal lit' s' else None
      | EmptyString => None
      end
  end.

(** The longest prefix of characters that satisfy [f], and what follows. *)
Fixpoint span (f : Ascii.ascii → bool) (s : string) : string * string :=
  match s with
  | String c s' =>
      if f c then let '(run, rest) := span f s' in (String c run, rest)
      else (EmptyString, s)
  | EmptyString => (EmptyString, EmptyString)
  end.

(** [base64Img.replace(/^data:image\/\w+;base64,/, "")]: the pattern is
    anchored, so it can match at the start only; [\w+] has to take every
    word character, since a [;] must follow. *)
Definition clean_base64 (base64Img : string) : string :=
  match strip_literal "data:image/" base64Img with
  | Some after =>
      let '(word, rest) := span is_word_char after in
      match word, strip_literal ";base64," rest with
      | String _ _, Some payload => payload
      | _, _ => base64Img
      end
  | None => base64Img
  end.

(** An attempt of [/data:([^;]+);/] at the start of [s]: the capture. *)
Definition mime_here (s : string) : option string :=
  match strip_literal "data:" s with
  | Some after =>
      let '(captured, rest) := span (λ c, negb (Ascii.eqb c ";"%char)) after in
      match captured, rest with
      | String _ _, String _ _ => Some captured
      | _, _ => None
      end
  | None => None
  end.

(** [base64Img.match(/data:([^;]+);/)?.[1]]: the leftmost match. *)
Fixpoint match_mime (s : string) : option string :=
  match s with
  | EmptyString => None
  | String _ s' =>
      match mime_here s with
      | Some captured => Some captured
      | None => match_mime s'
      end
  end.

(** ** [ImageGenerator.handleGenerate]: the history items *)

(** The [HistoryItem] built for one returned image; [id] and [timestamp]
    come from the clock and the random generator. The template literal of
    the custom dimensions is their decimal numeral, as in
    [template_opt_number]: exact for safe integers. *)
Definition history_item (state : ImageGenerator.t) (id : string) (timestamp : Z)
    (base64Img : string) : HistoryItem.t :=
  let cleanBase64 := clean_base64 base64Img in
  let mime := or_string (match_mime base64Img) "image/png" in
  let custom := bool_decide (ImageGenerator.aspectRatio state = CUSTOM) in
  {| HistoryItem.id := id;
     HistoryItem.base64 := cleanBase64;
     HistoryItem.mimeType := mime;
     HistoryItem.prompt := ImageGenerator.prompt state;
     HistoryItem.timestamp := timestamp;
     HistoryItem.aspectRatio :=
       if custom
       then pretty (ImageGenerator.customWidth state) +:+ ":"
              +:+ pretty (ImageGenerator.customHeight state)
       else AspectRatio_value (ImageGenerator.aspectRatio state);
     HistoryItem.width :=
       if custom then Some (ImageGenerator.customWidth state) else None;
     HistoryItem.height :=
       if custom then Some (ImageGenerator.customHeight state) else None |}.

(** ** [ImageGenerator.handleGenerate]: the state it leaves *)

(** What the clock and the random generator supply for one image: the [id]
    and [timestamp] of its item and the name of its file. *)
Module Stamp.
Record t := { id : string; timestamp : Z; filename : string }.
End Stamp.

(** What the component shows or does besides updating its state. *)
Inductive ui_effect :=
  | UiConsoleError (e : js_error)
  | Alert (message : string)
  | SaveToDirectory (filename : string) (bytes : string) (mimeType : string).

(** The state with the four cells that [handleGenerate] writes set to the
    given values. *)
Definition with_generation (loading : bool) (currentBatch history : list HistoryItem.t)
    (viewMode : ViewMode) (state : ImageGenerator.t) : ImageGenerator.t :=
  {| ImageGenerator.prompt := ImageGenerator.prompt state;
     ImageGenerator.aspectRatio := ImageGenerator.aspectRatio state;
     ImageGenerator.resolution := ImageGenerator.resolution state;
     ImageGenerator.outputCount := ImageGenerator.outputCount state;
     ImageGenerator.customWidth := ImageGenerator.customWidth state;
     ImageGenerator.customHeight := ImageGenerator.customHeight state;
     ImageGenerator.refImages := ImageGenerator.refImages state;
     ImageGenerator.contextImage := ImageGenerator.contextImage state;
     ImageGenerator.isEditing := ImageGenerator.isEditing state;
     ImageGenerator.loading := loading;
     ImageGenerator.currentBatch := currentBatch;
     ImageGenerator.history := history;
     ImageGenerator.viewMode := viewMode;
     ImageGenerator.showCanvas := ImageGenerator.showCanvas state;
     ImageGenerator.tempContextImgSrc := ImageGenerator.tempContextImgSrc state;
     ImageGenerator.dirHandle := ImageGenerator.dirHandle state;
     ImageGenerator.dirName := ImageGenerator.dirName state |}.

(** [setLoading(true); setCurrentBatch([]); setViewMode('current')] *)
Definition generation_started (state : ImageGenerator.t) : ImageGenerator.t :=
  with_generation true [] (ImageGenerator.history state) VIEW_CURRENT state.

Definition GENERATION_FAILED : string := "Generation failed. See console for details.".

Section image_component.
(** [atob], which returns the decoded string or throws. *)
Variable atob : string → js_error + string.
(** The clock and the random generator, by index of the image. *)
Variable stamps : nat → Stamp.t.

(** The [for ... of] loop over the returned images: the files saved (when
    a folder is selected), and then the items pushed or the error thrown;
    [base64ToBlob] throws when [atob] does. [saveToDirectory] is taken to
    complete; its result is not looked at. *)
Fixpoint build_items (state : ImageGenerator.t) (i : nat) (base64Images : list string)
  : list ui_effect * (js_error + list HistoryItem.t) :=
  match base64Images with
  | [] => ([], inr [])
  | base64Img :: later =>
      let item := history_item state (Stamp.id (stamps i)) (Stamp.timestamp (stamps i))
                    base64Img in
      let push (rest : js_error + list HistoryItem.t) :=
        match rest with
        | inl e => inl e
        | inr items => inr (item :: items)
        end in
      match ImageGenerator.dirHandle state with
      | Some _ =>
          match atob (HistoryItem.base64 item) with
          | inl e => ([], inl e)
          | inr bytes =>
              let '(saves, rest) := build_items state (S i) later in
              (SaveToDirectory (Stamp.filename (stamps i)) bytes
                 (HistoryItem.mimeType item) :: saves,
               push rest)
          end
      | None =>
          let '(saves, rest) := build_items state (S i) later in
          (saves, push rest)
      end
  end.

(** The [catch] and [finally] of [handleGenerate], on the state they find. *)
Definition generation_failed (saves : list ui_effect) (e : js_error)
    (found : ImageGenerator.t) : ImageGenerator.t * list ui_effect :=
  (with_generation false (ImageGenerator.currentBatch found)
     (ImageGenerator.history found) (ImageGenerator.viewMode found) found,
   saves ++ [UiConsoleError e; Alert GENERATION_FAILED]).

(** What [handleGenerate] does once the promise of [generateImages] has
    settled: [state] is the state the handler was created with, [found] the
    state its setters find. *)
Definition generation_settled (state : ImageGenerator.t) (settled : outcome (list string))
    (found : ImageGenerator.t) : ImageGenerator.t * list ui_effect :=
  match settled with
  | Fulfilled base64Images =>
      match build_items state 0 base64Images with
      | (saves, inr newItems) =>
          (with_generation false newItems (newItems ++ ImageGenerator.history found)
             (ImageGenerator.viewMode found) found,
           saves)
      | (saves, inl e) => generation_failed saves e found
      end
  | Rejected e => generation_failed [] e found
  | Pending => (found, [])
  end.

(** [handleGenerate] from a press of the button to the end, when nothing
    else touches the state in between. *)
Definition handleGenerate_image (w : world) (state : ImageGenerator.t)
  : ImageGenerator.t * list ui_effect :=
  match image_handleGenerate w state with
  | None => (state, [])
  | Some service => generation_settled state (result service) (generation_started state)
  end.
End image_component.

(** ** [ImageGenerator.handleUpscale] *)

(** [Object.values(AspectRatio)] *)
Definition AspectRatio_values : list AspectRatio :=
  [SQUARE; STANDARD; LANDSCAPE; PORTRAIT; CUSTOM].

(** The aspect ratio that [handleUpscale] selects for an item without
    usable dimensions. *)
Definition found_ratio (item : HistoryItem.t) : AspectRatio :=
  let foundAR :=
    find (λ ar, bool_decide (AspectRatio_value ar = HistoryItem.aspectRatio item))
         AspectRatio_values in
  match foundAR with
  | Some ar => if truthy_string (AspectRatio_value ar) then ar else SQUARE
  | None => SQUARE
  end.

(** The state after [handleUpscale(item)]: every setter it calls writes a
    value, so the handler is a function of the item and the state it finds. *)
Definition handleUpscale (item : HistoryItem.t) (state : ImageGenerator.t)
  : ImageGenerator.t :=
  let dims := truthy_opt_number (HistoryItem.width item)
              && truthy_opt_number (HistoryItem.height item) in
  {| ImageGenerator.prompt := HistoryItem.prompt item;
     ImageGenerator.aspectRatio := if dims then CUSTOM else found_ratio item;
     ImageGenerator.resolution := RES_4K;
     ImageGenerator.outputCount := ImageGenerator.outputCount state;
     ImageGenerator.customWidth :=
       match HistoryItem.width item with
       | Some width => if dims then width else ImageGenerator.customWidth state
       | None => ImageGenerator.customWidth state
       end;
     ImageGenerator.customHeight :=
       match HistoryItem.height item with
       | Some height => if dims then height else ImageGenerator.customHeight state
       | None => ImageGenerator.customHeight state
       end;
     ImageGenerator.refImages := ImageGenerator.refImages state;
     ImageGenerator.contextImage :=
       Some {| ImageData.base64 := HistoryItem.base64 item;
               ImageData.mimeType := HistoryItem.mimeType item |};
     ImageGenerator.isEditing := true;
     ImageGenerator.loading := ImageGenerator.loading state;
     ImageGenerator.currentBatch := ImageGenerator.currentBatch state;
     ImageGenerator.history := ImageGenerator.history state;
     ImageGenerator.viewMode := VIEW_CURRENT;
     ImageGenerator.showCanvas := ImageGenerator.showCanvas state;
     ImageGenerator.tempContextImgSrc := ImageGenerator.tempContextImgSrc state;
     ImageGenerator.dirHandle := ImageGenerator.dirHandle state;
     ImageGenerator.dirName := ImageGenerator.dirName state |}.

(** Every character of [s] satisfies [f]. *)
Fixpoint all_chars (f : Ascii.ascii → bool) (s : string) : bool :=
  match s with
  | EmptyString => true
  | String c s' => f c && all_chars f s'
  end.

Definition not_char (sep : Ascii.ascii) (c : Ascii.ascii) : bool :=
  negb (Ascii.eqb c sep).

(** A component state for the examples. *)
Definition sample_component (ar : AspectRatio) (wd ht : Z)
    (history : list HistoryItem.t) : ImageGenerator.t :=
  {| ImageGenerator.prompt := "p"; ImageGenerator.aspectRatio := ar;
     ImageGenerator.resolution := RES_1K; ImageGenerator.outputCount := 2;
     ImageGenerator.customWidth := wd; ImageGenerator.customHeight := ht;
     ImageGenerator.refImages := []; ImageGenerator.contextImage := None;
     ImageGenerator.isEditing := false; ImageGenerator.loading := false;
     ImageGenerator.currentBatch := []; ImageGenerator.history := history;
     ImageGenerator.viewMode := VIEW_HISTORY;
     ImageGenerator.showCanvas := false;
     ImageGenerator.tempContextImgSrc := EmptyString;
     ImageGenerator.dirHandle := None;
     ImageGenerator.dirName := EmptyString |}.

(** A component state with a folder selected for saving. *)
Definition sample_saving_component : ImageGenerator.t :=
  {| ImageGenerator.prompt := "p"; ImageGenerator.aspectRatio := SQUARE;
     ImageGenerator.resolution := RES_1K; ImageGenerator.outputCount := 2;
     ImageGenerator.customWidth := 1024; ImageGenerator.customHeight := 1024;
     ImageGenerator.refImages := []; ImageGenerator.contextImage := None;
     ImageGenerator.isEditing := false; ImageGenerator.loading := false;
     ImageGenerator.currentBatch := []; ImageGenerator.history := [];
     ImageGenerator.viewMode := VIEW_HISTORY;
     ImageGenerator.showCanvas := false;
     ImageGenerator.tempContextImgSrc := EmptyString;
     ImageGenerator.dirHandle := Some {| DirHandle.name := "out" |};
     ImageGenerator.dirName := "out" |}.

(** An [atob] for the examples: it decodes ["QUFB"] and throws on everything
    else. *)
Definition sample_atob (s : string) : js_error + string :=
  if bool_decide (s = "QUFB") then inr "AAA"
  else inl (Error "InvalidCharacterError").

Definition sample_stamps (i : nat) : Stamp.t :=
  {| Stamp.id := pretty i; Stamp.timestamp := 7; Stamp.filename := pretty i +:+ ".png" |}.

(** ** Further observations *)

(** The errors a trace logs with [console.error], in order. *)
Definition errors_logged (t : list event) : list js_error :=
  omap (λ ev, match ev with ConsoleError _ e => Some e | _ => None end) t.

(** The error with which the call answered by a reply fails, if it fails. *)
Definition failure_of (a : nat * reply GenerateContentResponse.t) : option js_error :=
  match call_result a.2 with
  | Rejected e => Some e
  | _ => None
  end.

(** The handles a sequence of replies delivers before its first rejection. *)
Fixpoint delivered (replies : list (reply Operation.t)) : list Operation.t :=
  match replies with
  | Resolves h :: later => h :: delivered later
  | _ => []
  end.

(** What the [catch] of [generateVideo] logs for an error. *)
Definition VIDEO_FAILED (e : js_error) : event :=
  ConsoleError "Video generation failed" e.

Definition NO_VIDEO_URI : js_error := Error "No video URI in response".

(** How [generateVideo] ends, given how the poll loop ends. *)
Definition video_finish (w : world) (polled : run Operation.t) : run string :=
  match result polled with
  | Fulfilled final =>
      if truthy_opt_string (primary_video_uri final)
      then Run (trace polled)
               (Fulfilled (template_opt_string (primary_video_uri final)
                             +:+ "&key=" +:+ template_opt_string (API_KEY w)))
      else Run (trace polled ++ [VIDEO_FAILED NO_VIDEO_URI]) (Rejected NO_VIDEO_URI)
  | Rejected e => Run (trace polled ++ [VIDEO_FAILED e]) (Rejected e)
  | Pending => Run (trace polled) Pending
  end.

(** ** The error kinds of the specification *)

(** The error taxonomy of the specification (section 7), as written
    there. *)
Inductive spec_error_kind :=
  | NoImageDataError
  | NoVideoDataError
  | BatchGenerationError
  | BackendCallError.

(** The kind of an error value of the service. The source constructs two
    errors of its own, by their messages, and lets every other failure pass
    as it came from the backend call; it constructs no error around
    another. *)
Definition spec_kind_of (e : js_error) : spec_error_kind :=
  match e with
  | Error message =>
      if bool_decide (message = "No image data found in response")
      then NoImageDataError
      else if bool_decide (message = "No video URI in response")
      then NoVideoDataError
      else BackendCallError
  | ServiceFailure _ => BackendCallError
  end.

(** The failure of a batch in the words of the specification: the caller
    gets an error of the batch kind, which is another error than the first
    failure it carries. *)
Definition fails_with_batch_error (settled : outcome (list string))
    (first : js_error) : Prop :=
  ∃ reason, settled = Rejected reason
            ∧ spec_kind_of reason = BatchGenerationError
            ∧ reason ≠ first.

(** * Properties *)

(** ** The run monad *)

Lemma trace_bind {A B : Type} (m : run A) (k : A → run B) :
  trace (m ≫= k) =
  trace m ++ match result m with Fulfilled a => trace (k a) | _ => [] end.
Proof.
  unfold mbind, run_bind. destruct (result m); simpl; by rewrite ?app_nil_r.
Qed.

Lemma result_bind {A B : Type} (m : run A) (k : A → run B) :
  result (m ≫= k) =
  match result m with
  | Fulfilled a => result (k a)
  | Rejected e => Rejected e
  | Pending => Pending
  end.
Proof. unfold mbind, run_bind. by destruct (result m). Qed.

Lemma ensureApiKey_run (w : world) :
  ∃ calls, ensureApiKey w = Run [EnsureApiKey calls] (Fulfilled ()).
Proof.
  unfold ensureApiKey, perform.
  destruct (aistudio w) as [host|]; [destruct (AiStudio.hasSelectedApiKey host)|];
    simpl; eauto.
Qed.

(** ** The parts array *)

Lemma fold_push {A B : Type} (f : A → B) (l : list A) (acc : list B) :
  fold_left (λ parts x, push parts (f x)) l acc = acc ++ map f l.
Proof.
  revert acc. induction l as [|x l IH]; intros acc; simpl.
  - by rewrite app_nil_r.
  - rewrite IH. unfold push. by rewrite <- app_assoc.
Qed.

Lemma build_parts_eq (options : GenerateImageOptions.t) :
  build_parts options =
  map inline_part (GenerateImageOptions.refImages options)
    ++ context_parts options
    ++ [text_part (GenerateImageOptions.prompt options)].
Proof.
  unfold build_parts, context_parts. rewrite fold_push. simpl.
  destruct (GenerateImageOptions.contextImage options); unfold push; simpl.
  - by rewrite <- app_assoc.
  - done.
Qed.

(** ** The shape of a [generateImages] run *)

Section image_run.
Variable w : world.
Variable count : Z.
Variable options : GenerateImageOptions.t.

Let params := build_params (modelName (usePro options)) (usePro options) options.
Let calls :=
  map (λ _ : nat, image_call (getClient w) (modelName (usePro options))
                    (usePro options) options)
      (seq 0 (Z.to_nat count)).

Lemma issued_calls :
  flat_map issued calls = replicate (Z.to_nat count) (GenerateContent params).
Proof.
  subst calls. generalize 0%nat.
  induction (Z.to_nat count) as [|n IH]; intros s; simpl; [done|].
  by rewrite IH.
Qed.

Lemma generateImages_trace :
  trace (generateImages w count options) =
  (if usePro options then trace (ensureApiKey w) else [])
    ++ replicate (Z.to_nat count) (GenerateContent params)
    ++ settle_trace calls (image_replies w).
Proof.
  unfold generateImages. rewrite trace_bind.
  assert (Hgate : result (if usePro options then ensureApiKey w else mret ())
                  = Fulfilled ()).
  { destruct (usePro options); [|done].
    destruct (ensureApiKey_run w) as [c ->]. done. }
  rewrite Hgate, trace_bind. unfold start_all, Promise_all. simpl.
  fold calls. rewrite issued_calls.
  destruct (usePro options); done.
Qed.

Lemma generateImages_result :
  result (generateImages w count options) =
  result (Promise_all calls (image_replies w)).
Proof.
  unfold generateImages. rewrite result_bind.
  assert (Hgate : result (if usePro options then ensureApiKey w else mret ())
                  = Fulfilled ()).
  { destruct (usePro options); [|done].
    destruct (ensureApiKey_run w) as [c ->]. done. }
  rewrite Hgate. by rewrite result_bind.
Qed.
End image_run.

(** ** What the callbacks log *)

Lemma on_reply_cases (r : reply GenerateContentResponse.t) :
  (∃ url, on_reply r = Run [] (Fulfilled url)) ∨
  (∃ e, on_reply r = Run [ConsoleError "Image generation failed" e] (Rejected e)).
Proof.
  unfold on_reply, try_catch. destruct r as [response|e]; simpl.
  - unfold mbind, run_bind, extract_image; simpl.
    destruct (first_candidate_parts response) as [parts|]; simpl; [|by right; eauto].
    destruct (scan_parts parts); simpl; [left|right]; eauto.
  - right. eauto.
Qed.

Lemma call_result_settled (r : reply GenerateContentResponse.t) :
  call_result r ≠ Pending.
Proof.
  unfold call_result.
  destruct (on_reply_cases r) as [[url ->]|[e ->]]; done.
Qed.

Lemma requests_of_app (t1 t2 : list event) :
  requests_of (t1 ++ t2) = requests_of t1 ++ requests_of t2.
Proof. apply omap_app. Qed.

Lemma requests_of_replicate (n : nat) (params : GenerateContentParameters.t) :
  requests_of (replicate n (GenerateContent params)) = replicate n params.
Proof. induction n as [|n IH]; simpl; [done|]. unfold requests_of in *. simpl. by rewrite IH. Qed.

Lemma gate_runs_app (t1 t2 : list event) :
  gate_runs (t1 ++ t2) = (gate_runs t1 + gate_runs t2)%nat.
Proof. unfold gate_runs. by rewrite filter_app, length_app. Qed.

Lemma gate_runs_replicate (n : nat) (params : GenerateContentParameters.t) :
  gate_runs (replicate n (GenerateContent params)) = 0%nat.
Proof. induction n as [|n IH]; simpl; [done|]. apply IH. Qed.

Section settle.
Variable calls : list (async GenerateContentResponse.t string).
Hypothesis calls_resume : Forall (λ c, resume c = on_reply) calls.

Lemma settle_trace_requests (arrivals : list (nat * reply GenerateContentResponse.t)) :
  requests_of (settle_trace calls arrivals) = [].
Proof.
  induction arrivals as [|[i r] later IH]; simpl; [done|].
  rewrite requests_of_app, IH, app_nil_r.
  destruct (calls !! i) as [c|] eqn:Hc; [|done].
  rewrite (proj1 (Forall_lookup _ _) calls_resume i c Hc).
  destruct (on_reply_cases r) as [[url ->]|[e ->]]; done.
Qed.

Lemma settle_trace_gate (arrivals : list (nat * reply GenerateContentResponse.t)) :
  gate_runs (settle_trace calls arrivals) = 0%nat.
Proof.
  induction arrivals as [|[i r] later IH]; simpl; [done|].
  rewrite gate_runs_app, IH, Nat.add_0_r.
  destruct (calls !! i) as [c|] eqn:Hc; [|done].
  rewrite (proj1 (Forall_lookup _ _) calls_resume i c Hc).
  destruct (on_reply_cases r) as [[url ->]|[e ->]]; done.
Qed.
End settle.

Lemma image_calls_resume (client : GoogleGenAI) (name : string) (pro : bool)
    (options : GenerateImageOptions.t) (n : nat) :
  Forall (λ c, resume c = on_reply)
         (map (λ _ : nat, image_call client name pro options) (seq 0 n)).
Proof. apply Forall_map, Forall_forall. done. Qed.

(** The backend calls of a run: [count] identical requests. *)
Lemma generateImages_requests (w : world) (count : Z) (options : GenerateImageOptions.t) :
  requests_of (trace (generateImages w count options)) =
  replicate (Z.to_nat count)
            (build_params (modelName (usePro options)) (usePro options) options).
Proof.
  rewrite generateImages_trace, !requests_of_app, requests_of_replicate.
  rewrite settle_trace_requests by apply image_calls_resume.
  rewrite app_nil_r.
  destruct (usePro options); [|done].
  destruct (ensureApiKey_run w) as [c ->]. done.
Qed.

(** ** Request assembly *)

(** C3. The content parts that [generateImages] sends with every call are
    the reference images in their stored order, each with its own base64
    data and media type, then the context image when there is one, then the
    text prompt; for reference images [A; B], context image [C] and prompt
    [p] the list is exactly [A; B; C; p]. *)
Theorem parts_order (w : world) (count : Z) (options : GenerateImageOptions.t) :
  let image := λ img : ImageData.t,
    {| Part.text := None;
       Part.inlineData :=
         Some {| Blob.data := Some (ImageData.base64 img);
                 Blob.mimeType := Some (ImageData.mimeType img) |} |} in
  let text := λ s : string, {| Part.text := Some s; Part.inlineData := None |} in
  GenerateContentParameters.contents
    <$> requests_of (trace (generateImages w count options))
  = replicate (Z.to_nat count)
      (map image (GenerateImageOptions.refImages options)
         ++ match GenerateImageOptions.contextImage options with
            | Some contextImage => [image contextImage]
            | None => []
            end
         ++ [text (GenerateImageOptions.prompt options)])
  ∧ ∀ (A B C : ImageData.t) (p : string) ar wd ht res ed,
      GenerateContentParameters.contents
        <$> requests_of (trace (generateImages w count
              {| GenerateImageOptions.prompt := p;
                 GenerateImageOptions.aspectRatio := ar;
                 GenerateImageOptions.width := wd;
                 GenerateImageOptions.height := ht;
                 GenerateImageOptions.resolution := res;
                 GenerateImageOptions.refImages := [A; B];
                 GenerateImageOptions.contextImage := Some C;
                 GenerateImageOptions.isEditing := ed |}))
      = replicate (Z.to_nat count) [image A; image B; image C; text p].
Proof.
  intros image text.
  split; intros; rewrite generateImages_requests, fmap_replicate; simpl;
    rewrite build_parts_eq; unfold context_parts; simpl; [|done].
  by destruct (GenerateImageOptions.contextImage options).
Qed.

Lemma parts_order_witness :
  GenerateContentParameters.contents
    <$> requests_of (trace (generateImages (sample_world None [] []) 1
                              (sample_options SQUARE None None RES_1K)))
  = [[ {| Part.text := None;
          Part.inlineData := Some {| Blob.data := Some "QUFB";
                                     Blob.mimeType := Some "image/png" |} |};
       {| Part.text := None;
          Part.inlineData := Some {| Blob.data := Some "QkJC";
                                     Blob.mimeType := Some "image/jpeg" |} |};
       {| Part.text := None;
          Part.inlineData := Some {| Blob.data := Some "Q0ND";
                                     Blob.mimeType := Some "image/webp" |} |};
       {| Part.text := Some "p"; Part.inlineData := None |} ]].
Proof.
  exact (proj2 (parts_order (sample_world None [] []) 1
                  (sample_options SQUARE None None RES_1K))
           (sample_image "QUFB" "image/png") (sample_image "QkJC" "image/jpeg")
           (sample_image "Q0ND" "image/webp") "p" SQUARE None None RES_1K None).
Defined.

(** C5. The model of every call is a function of the resolution tier alone:
    the fast model for 1K, the higher-capability model for 2K and 4K. *)
Theorem model_selection (w : world) (count : Z) (options : GenerateImageOptions.t) :
  GenerateContentParameters.model
    <$> requests_of (trace (generateImages w count options))
  = replicate (Z.to_nat count)
      match GenerateImageOptions.resolution options with
      | RES_1K => MODEL_NANO_BANANA
      | RES_2K | RES_4K => MODEL_PRO_IMAGE
      end.
Proof.
  rewrite generateImages_requests, fmap_replicate. simpl. unfold usePro.
  by destruct (GenerateImageOptions.resolution options).
Qed.

Lemma ratioStr_custom (options : GenerateImageOptions.t) (width height : Z) :
  GenerateImageOptions.aspectRatio options = CUSTOM →
  GenerateImageOptions.width options = Some width →
  GenerateImageOptions.height options = Some height →
  width ≠ 0 → height ≠ 0 →
  ratioStr options = pretty width +:+ ":" +:+ pretty height.
Proof.
  intros Har Hw Hh Hw0 Hh0. unfold ratioStr. rewrite Har, Hw, Hh. simpl.
  destruct (Z.eqb_spec width 0), (Z.eqb_spec height 0); done.
Qed.

Lemma ratioStr_fallback (options : GenerateImageOptions.t) :
  GenerateImageOptions.aspectRatio options = CUSTOM →
  GenerateImageOptions.width options = None
    ∨ GenerateImageOptions.height options = None →
  ratioStr options = "1:1".
Proof.
  intros Har Hmiss. unfold ratioStr. rewrite Har. simpl.
  destruct Hmiss as [-> | ->]; simpl; [done|].
  by rewrite andb_false_r.
Qed.

Lemma ratioStr_enumerated (options : GenerateImageOptions.t) :
  GenerateImageOptions.aspectRatio options ≠ CUSTOM →
  ratioStr options = AspectRatio_value (GenerateImageOptions.aspectRatio options).
Proof. intros Har. unfold ratioStr. by rewrite decide_False. Qed.

(** C4. The aspect-ratio string of every payload is [ratioStr]: for a custom
    ratio with width and height present and positive (safe integers, so
    that the template literal prints their digits) it is the raw
    [width:height] (nothing is reduced: 1280 by 720 gives ["1280:720"]); for
    a custom ratio with width or height missing it is ["1:1"]; for an
    enumerated ratio it is the enum's own string. *)
Theorem ratio_string_resolution (w : world) (count : Z) (options : GenerateImageOptions.t) :
  (ImageConfig.aspectRatio ∘ GenerateContentConfig.imageConfig
     ∘ GenerateContentParameters.config)
    <$> requests_of (trace (generateImages w count options))
  = replicate (Z.to_nat count) (ratioStr options)
  ∧ (∀ width height,
       GenerateImageOptions.aspectRatio options = CUSTOM →
       GenerateImageOptions.width options = Some width →
       GenerateImageOptions.height options = Some height →
       0 < width ≤ MAX_SAFE_INTEGER → 0 < height ≤ MAX_SAFE_INTEGER →
       ratioStr options = pretty width +:+ ":" +:+ pretty height)
  ∧ (GenerateImageOptions.aspectRatio options = CUSTOM →
     GenerateImageOptions.width options = None
       ∨ GenerateImageOptions.height options = None →
     ratioStr options = "1:1")
  ∧ (GenerateImageOptions.aspectRatio options ≠ CUSTOM →
     ratioStr options = AspectRatio_value (GenerateImageOptions.aspectRatio options)).
Proof.
  split; [|split; [|split]].
  - rewrite generateImages_requests, fmap_replicate. f_equal.
    simpl. unfold build_config. by destruct (usePro options).
  - intros width height ??? Hw Hh. apply ratioStr_custom; auto; lia.
  - apply ratioStr_fallback.
  - apply ratioStr_enumerated.
Qed.

Lemma ratio_string_resolution_witness :
  ratioStr (sample_options CUSTOM (Some 1280) (Some 720) RES_1K) = "1280:720"
  ∧ ratioStr (sample_options CUSTOM (Some 1280) None RES_1K) = "1:1"
  ∧ ratioStr (sample_options CUSTOM None (Some 720) RES_1K) = "1:1"
  ∧ ratioStr (sample_options LANDSCAPE (Some 1280) (Some 720) RES_1K) = "16:9".
Proof.
  pose (w := sample_world None [] []).
  split; [|split; [|split]].
  - apply (proj1 (proj2 (ratio_string_resolution w 1
             (sample_options CUSTOM (Some 1280) (Some 720) RES_1K))) 1280 720);
      [reflexivity | reflexivity | reflexivity
      | unfold MAX_SAFE_INTEGER; lia | unfold MAX_SAFE_INTEGER; lia].
  - apply (proj1 (proj2 (proj2 (ratio_string_resolution w 1
             (sample_options CUSTOM (Some 1280) None RES_1K)))));
      [reflexivity | right; reflexivity].
  - apply (proj1 (proj2 (proj2 (ratio_string_resolution w 1
             (sample_options CUSTOM None (Some 720) RES_1K)))));
      [reflexivity | left; reflexivity].
  - apply (proj2 (proj2 (proj2 (ratio_string_resolution w 1
             (sample_options LANDSCAPE (Some 1280) (Some 720) RES_1K))))).
    discriminate.
Defined.

(** C8. The config of every payload carries [imageSize] exactly when the
    higher-capability model is selected; for a 1K request the config is the
    aspect ratio alone, and the aspect-ratio field is the same in both
    cases. *)
Theorem image_size_only_for_pro (w : world) (count : Z) (options : GenerateImageOptions.t) :
  ∃ params,
    requests_of (trace (generateImages w count options))
      = replicate (Z.to_nat count) params
    ∧ (is_Some (ImageConfig.imageSize
                  (GenerateContentConfig.imageConfig
                     (GenerateContentParameters.config params)))
       ↔ GenerateContentParameters.model params = MODEL_PRO_IMAGE)
    ∧ GenerateContentConfig.imageConfig (GenerateContentParameters.config params)
      = {| ImageConfig.aspectRatio := ratioStr options;
           ImageConfig.imageSize :=
             match GenerateImageOptions.resolution options with
             | RES_1K => None
             | res => Some res
             end |}.
Proof.
  eexists. split; [apply generateImages_requests|].
  unfold build_params, build_config, modelName, usePro. simpl.
  destruct (GenerateImageOptions.resolution options); simpl;
    (split; [|reflexivity]); split; intros H;
    first [ reflexivity | by inversion H | by destruct H | by eexists ].
Qed.

(** ** Result extraction *)

Lemma scan_parts_first (pre : list Part.t) (part : Part.t) (post : list Part.t) :
  no_inline_data pre → has_inline_data part = true →
  scan_parts (pre ++ part :: post) = Some (data_url part).
Proof.
  intros Hpre Hpart. induction Hpre as [|p pre Hp _ IH]; simpl.
  - by rewrite Hpart.
  - by rewrite Hp.
Qed.

Lemma scan_parts_none (parts : list Part.t) :
  no_inline_data parts → scan_parts parts = None.
Proof. intros H. induction H as [|p parts Hp _ IH]; simpl; [done|]. by rewrite Hp. Qed.

Lemma on_reply_found (response : GenerateContentResponse.t) (parts : list Part.t)
    (url : string) :
  first_candidate_parts response = Some parts → scan_parts parts = Some url →
  on_reply (Resolves response) = Run [] (Fulfilled url).
Proof.
  intros Hparts Hscan. unfold on_reply, try_catch, extract_image. simpl.
  unfold mbind, run_bind. simpl. by rewrite Hparts, Hscan.
Qed.

Lemma on_reply_not_found (response : GenerateContentResponse.t) :
  (∀ parts, first_candidate_parts response = Some parts → scan_parts parts = None) →
  on_reply (Resolves response) = NO_IMAGE_RUN.
Proof.
  intros Hnone. unfold on_reply, try_catch, extract_image. simpl.
  unfold mbind, run_bind. simpl.
  destruct (first_candidate_parts response) as [parts|]; [|done].
  by rewrite (Hnone parts eq_refl).
Qed.

(** ** [Promise.all] *)

Section promise_all.
Variable calls : list (async GenerateContentResponse.t string).
Hypothesis calls_resume : Forall (λ c, resume c = on_reply) calls.

Lemma all_settle_first_rejection before i r after e values remaining :
  Forall (fulfilled_in_range (length calls)) before →
  (i < length calls)%nat →
  call_result r = Rejected e →
  (length before < remaining)%nat →
  all_settle calls (before ++ (i, r) :: after) values remaining = Rejected e.
Proof.
  intros Hbefore Hi Hr. revert values remaining.
  induction Hbefore as [|[j rj] before [Hj [url Hurl]] _ IH];
    intros values remaining Hlen; simpl in *.
  - destruct (lookup_lt_is_Some_2 calls i Hi) as [c Hc]. rewrite Hc.
    rewrite (proj1 (Forall_lookup _ _) calls_resume i c Hc).
    fold (call_result r). by rewrite Hr.
  - destruct (lookup_lt_is_Some_2 calls j Hj) as [c Hc]. rewrite Hc.
    rewrite (proj1 (Forall_lookup _ _) calls_resume j c Hc).
    fold (call_result rj). rewrite Hurl.
    destruct (Nat.eqb_spec (remaining - 1) 0) as [H0|_]; [lia|].
    apply IH. lia.
Qed.
End promise_all.

(** Among replies of which one makes its call fail, there is a first. *)
Lemma first_rejection (arrivals : list (nat * reply GenerateContentResponse.t)) :
  Exists failing arrivals →
  ∃ before i r after e,
    arrivals = before ++ (i, r) :: after
    ∧ Forall (λ a, ∃ url, call_result a.2 = Fulfilled url) before
    ∧ call_result r = Rejected e.
Proof.
  induction arrivals as [|[j rj] later IH]; intros Hex.
  - by apply Exists_nil in Hex.
  - destruct (call_result rj) as [url|e|] eqn:Hj.
    + apply Exists_cons in Hex as [[e He]|Hex]; [simpl in He; congruence|].
      destruct (IH Hex) as (before & i & r & after & e & -> & Hbefore & Hr).
      exists ((j, rj) :: before), i, r, after, e. split; [done|].
      split; [|done]. constructor; [simpl; eauto | done].
    + exists [], j, rj, later, e. by repeat split.
    + by apply call_result_settled in Hj.
Qed.

(** Distinct replies to [count] calls: fewer than [count] come before any
    one of them. *)
Lemma arrivals_before_bound {R : Type} (count : nat)
    (before : list (nat * reply R)) (a : nat * reply R) (after : list (nat * reply R)) :
  arrivals_ok count (before ++ a :: after) →
  (length before < count)%nat ∧ (a.1 < count)%nat
  ∧ Forall (λ b, (b.1 < count)%nat) before.
Proof.
  intros [Hnodup Hrange].
  rewrite fmap_app, fmap_cons in Hnodup, Hrange.
  apply Forall_app in Hrange as [Hbefore Hrange].
  apply Forall_cons in Hrange as [Ha _].
  split; [|split; [done|by apply Forall_fmap in Hbefore]].
  assert (Hsub : before.*1 ++ [a.1] ⊆+ seq 0 count).
  { apply NoDup_submseteq.
    - apply NoDup_app in Hnodup as (Hnb & Hdisj & Hna).
      apply NoDup_app. split; [done|]. split.
      + intros x Hx Hxa. apply list_elem_of_singleton in Hxa as ->.
        apply (Hdisj _ Hx). left.
      + apply NoDup_singleton.
    - intros x Hx. apply elem_of_seq. split; [lia|]. simpl.
      apply elem_of_app in Hx as [Hx|Hx].
      + by apply (proj1 (Forall_forall _ _) Hbefore).
      + by apply list_elem_of_singleton in Hx as ->. }
  apply submseteq_length in Hsub.
  rewrite length_app, length_fmap, length_seq in Hsub. simpl in Hsub. lia.
Qed.

Lemma generateImages_single (w : world) (options : GenerateImageOptions.t)
    (r : reply GenerateContentResponse.t) :
  image_replies w = [(0%nat, r)] →
  result (generateImages w 1 options) =
  match call_result r with
  | Fulfilled url => Fulfilled [url]
  | Rejected e => Rejected e
  | Pending => Pending
  end.
Proof.
  intros Hw. rewrite generateImages_result, Hw. simpl.
  fold (call_result r). by destruct (call_result r).
Qed.

(** ** The batch *)

(** C1. When the reply to any one of the concurrent calls makes that call
    fail, the promise of [generateImages] is rejected, with the error of the
    call that failed first in arrival order, as that call threw it and not
    inside another error; it is not fulfilled with a list, partial or
    otherwise. *)
Theorem batch_fails_on_any_failure (w : world) (count : Z)
    (options : GenerateImageOptions.t) :
  arrivals_ok (Z.to_nat count) (image_replies w) →
  Exists failing (image_replies w) →
  ∃ before i r after e,
    image_replies w = before ++ (i, r) :: after
    ∧ Forall (λ a, ∃ url, call_result a.2 = Fulfilled url) before
    ∧ call_result r = Rejected e
    ∧ result (generateImages w count options) = Rejected e.
Proof.
  intros Hok Hfail.
  destruct (first_rejection _ Hfail) as (before & i & r & after & e & Hw & Hbefore & Hr).
  exists before, i, r, after, e. repeat (split; [done|]).
  rewrite Hw in Hok.
  destruct (arrivals_before_bound _ _ _ _ Hok) as (Hlen & Hi & Hrange).
  rewrite generateImages_result, Hw. unfold Promise_all. simpl in *.
  set (calls := map _ (seq 0 (Z.to_nat count))).
  assert (Hcalls : length calls = Z.to_nat count)
    by (subst calls; by rewrite length_map, length_seq).
  destruct calls as [|c calls'] eqn:Ecalls; [simpl in Hcalls; lia|].
  rewrite <- Ecalls in *.
  apply all_settle_first_rejection; rewrite ?Hcalls; try done.
  - subst calls. apply image_calls_resume.
  - apply Forall_forall. intros a Ha. split.
    + by apply (proj1 (Forall_forall _ _) Hrange).
    + by apply (proj1 (Forall_forall _ _) Hbefore).
Qed.

Lemma batch_fails_on_any_failure_witness :
  let w := sample_world None
             [(2%nat, Resolves (response_of [[image_part "QUFB" (Some "image/png")]]));
              (1%nat, Resolves (response_of [[text_part "sorry"]]));
              (0%nat, Resolves (response_of [[image_part "QkJC" None]]))] [] in
  let options := sample_options SQUARE None None RES_1K in
  arrivals_ok (Z.to_nat 3) (image_replies w)
  ∧ Exists failing (image_replies w)
  ∧ ∃ before i r after e,
      image_replies w = before ++ (i, r) :: after
      ∧ Forall (λ a, ∃ url, call_result a.2 = Fulfilled url) before
      ∧ call_result r = Rejected e
      ∧ result (generateImages w 3 options) = Rejected e.
Proof.
  intros w options.
  assert (Hok : arrivals_ok (Z.to_nat 3) (image_replies w)).
  { split; apply (bool_decide_unpack _); vm_compute; exact I. }
  assert (Hfail : Exists failing (image_replies w)).
  { apply Exists_cons_tl, Exists_cons_hd. exists NO_IMAGE_DATA. reflexivity. }
  split; [exact Hok|]. split; [exact Hfail|].
  exact (batch_fails_on_any_failure w 3 options Hok Hfail).
Defined.

(** C1, as the specification words it, does not hold. Of three calls
    answered in call order, the second without an image, the batch is
    rejected with the second call's own error, of the kind of a missing
    image: not with a batch error around it. *)
Lemma batch_error_is_first_failure_itself :
  let w := sample_world None
             [(0%nat, Resolves (response_of [[image_part "QUFB" (Some "image/png")]]));
              (1%nat, Resolves (response_of [[text_part "sorry"]]));
              (2%nat, Resolves (response_of [[image_part "QkJC" None]]))] [] in
  let options := sample_options SQUARE None None RES_1K in
  call_result (Resolves (response_of [[text_part "sorry"]])) = Rejected NO_IMAGE_DATA
  ∧ result (generateImages w 3 options) = Rejected NO_IMAGE_DATA
  ∧ spec_kind_of NO_IMAGE_DATA = NoImageDataError
  ∧ ¬ fails_with_batch_error (result (generateImages w 3 options)) NO_IMAGE_DATA.
Proof.
  intros w options.
  assert (Hres : result (generateImages w 3 options) = Rejected NO_IMAGE_DATA)
    by (vm_compute; reflexivity).
  split; [reflexivity|]. split; [exact Hres|]. split; [reflexivity|].
  intros (reason & Hreason & _ & Hother).
  rewrite Hres in Hreason. injection Hreason as <-. by apply Hother.
Qed.

(** ** The batch that succeeds *)

Lemma omap_id_all_some {A : Type} (l : list (option A)) :
  Forall is_Some l → Some <$> omap id l = l.
Proof.
  induction 1 as [|x l [a ->] _ IH]; [done|].
  cbn. by rewrite IH.
Qed.

Lemma omap_id_lookup {A : Type} (l : list (option A)) (i : nat) (a : A) :
  Forall is_Some l → l !! i = Some (Some a) → omap id l !! i = Some a.
Proof.
  intros Hall Hi. rewrite <- (omap_id_all_some l Hall) in Hi.
  rewrite list_lookup_fmap in Hi.
  destruct (omap id l !! i); simpl in Hi; congruence.
Qed.

Section promise_all_fulfilled.
Variable calls : list (async GenerateContentResponse.t string).
Hypothesis calls_resume : Forall (λ c, resume c = on_reply) calls.

Lemma all_settle_fulfilled arrivals (values : list (option string)) :
  length values = length calls →
  NoDup arrivals.*1 →
  arrivals ≠ [] →
  Forall (λ a, values !! a.1 = Some None
               ∧ ∃ url, call_result a.2 = Fulfilled url) arrivals →
  (∀ i, values !! i = Some None → i ∈ arrivals.*1) →
  ∃ urls,
    all_settle calls arrivals values (length arrivals) = Fulfilled urls
    ∧ length urls = length calls
    ∧ (∀ i url, values !! i = Some (Some url) → urls !! i = Some url)
    ∧ (∀ i r, (i, r) ∈ arrivals →
              ∃ url, call_result r = Fulfilled url ∧ urls !! i = Some url).
Proof.
  revert values.
  induction arrivals as [|[i r] later IH]; intros values Hlen Hnodup Hne Hall Hnone;
    [done|].
  apply Forall_cons in Hall as [[Hi [url Hurl]] Hlater]. simpl in Hi, Hurl.
  rewrite fmap_cons in Hnodup. apply NoDup_cons in Hnodup as [Hfresh Hnodup].
  assert (Hlt : (i < length calls)%nat)
    by (rewrite <- Hlen; by eapply lookup_lt_Some).
  destruct (lookup_lt_is_Some_2 calls i Hlt) as [c Hc].
  cbn [all_settle length]. rewrite Hc.
  rewrite (proj1 (Forall_lookup _ _) calls_resume i c Hc).
  fold (call_result r). rewrite Hurl.
  replace (S (length later) - 1)%nat with (length later) by lia.
  assert (Hset : <[i:=Some url]> values !! i = Some (Some url))
    by (apply list_lookup_insert_eq; lia).
  destruct later as [|a later'] eqn:Elater.
  - cbn [length Nat.eqb].
    assert (Hsome : Forall is_Some (<[i:=Some url]> values)).
    { apply Forall_lookup. intros j x Hj.
      destruct (decide (i = j)) as [<-|Hij]; [rewrite Hset in Hj; by simplify_eq|].
      rewrite list_lookup_insert_ne in Hj by done.
      destruct x as [x|]; [done|].
      apply Hnone in Hj. simpl in Hj. apply list_elem_of_singleton in Hj. done. }
    eexists. split; [reflexivity|]. split.
    { rewrite <- (length_fmap Some), omap_id_all_some by done.
      by rewrite length_insert. }
    split.
    + intros j u Hj. apply omap_id_lookup; [done|].
      destruct (decide (i = j)) as [<-|Hij]; [congruence|].
      by rewrite list_lookup_insert_ne.
    + intros j rj Hin. apply list_elem_of_singleton in Hin. simplify_eq.
      exists url. split; [done|]. by apply omap_id_lookup.
  - rewrite <- Elater in *.
    assert (Hnz : (length later =? 0)%nat = false)
      by (rewrite Elater; reflexivity).
    rewrite Hnz.
    destruct (IH (<[i:=Some url]> values)) as (urls & Hrun & Hlen' & Hold & Hnew).
    + by rewrite length_insert.
    + done.
    + by rewrite Elater.
    + apply Forall_forall. intros b Hb.
      destruct (proj1 (Forall_forall _ _) Hlater b Hb) as [Hb1 Hb2].
      split; [|done]. rewrite list_lookup_insert_ne; [done|].
      intros Heq. apply Hfresh. simpl. rewrite Heq. by apply list_elem_of_fmap_2.
    + intros j Hj.
      destruct (decide (i = j)) as [<-|Hij]; [congruence|].
      rewrite list_lookup_insert_ne in Hj by done.
      apply Hnone in Hj. rewrite fmap_cons in Hj.
      apply elem_of_cons in Hj as [Hj|Hj]; [simpl in Hj; congruence | done].
    + exists urls. split; [done|]. split; [done|]. split.
      * intros j u Hj. apply Hold.
        destruct (decide (i = j)) as [<-|Hij]; [congruence|].
        by rewrite list_lookup_insert_ne.
      * intros j rj Hin. apply elem_of_cons in Hin as [Hin|Hin].
        -- simplify_eq. exists url. split; [done|]. by apply Hold.
        -- by apply Hnew.
Qed.
End promise_all_fulfilled.

(** When every call is answered and every answer holds an image, the batch
    is fulfilled with one reference per call, each in the slot of its
    call. *)
Lemma batch_fulfilled (w : world) (count : Z) (options : GenerateImageOptions.t) :
  arrivals_ok (Z.to_nat count) (image_replies w) →
  length (image_replies w) = Z.to_nat count →
  Forall (λ a, ∃ url, call_result a.2 = Fulfilled url) (image_replies w) →
  ∃ urls,
    result (generateImages w count options) = Fulfilled urls
    ∧ length urls = Z.to_nat count
    ∧ (∀ i r, (i, r) ∈ image_replies w →
              ∃ url, call_result r = Fulfilled url ∧ urls !! i = Some url).
Proof.
  intros [Hnodup Hrange] Hlen Hall.
  rewrite generateImages_result. unfold Promise_all. cbn [result].
  set (calls := map _ (seq 0 (Z.to_nat count))).
  assert (Hcalls : length calls = Z.to_nat count)
    by (subst calls; by rewrite length_map, length_seq).
  destruct calls as [|c calls'] eqn:Ecalls.
  { exists []. simpl in Hcalls. rewrite <- Hcalls in *.
    destruct (image_replies w); [|done].
    split; [done|]. split; [done|]. intros i r Hin. by apply elem_of_nil in Hin. }
  assert (Hpos : (0 < Z.to_nat count)%nat) by (simpl in Hcalls; lia).
  rewrite <- Ecalls in *. clear Ecalls c calls'.
  assert (Hperm : (image_replies w).*1 ≡ₚ seq 0 (Z.to_nat count)).
  { apply submseteq_length_Permutation.
    - apply NoDup_submseteq; [done|]. intros x Hx. apply elem_of_seq.
      split; [lia|]. simpl. by apply (proj1 (Forall_forall _ _) Hrange).
    - by rewrite length_seq, length_fmap, Hlen. }
  destruct (all_settle_fulfilled calls (image_calls_resume _ _ _ _ _)
              (image_replies w) (replicate (length calls) None))
    as (urls & Hrun & Hlen' & _ & Hnew).
  - by rewrite length_replicate.
  - done.
  - intros Hnil. rewrite Hnil in Hlen. simpl in Hlen. lia.
  - apply Forall_forall. intros a Ha. split.
    + apply lookup_replicate_2. rewrite Hcalls.
      apply (proj1 (Forall_forall _ _) Hrange). by apply list_elem_of_fmap_2.
    + by apply (proj1 (Forall_forall _ _) Hall).
  - intros i Hi. apply lookup_replicate in Hi as [_ Hi].
    rewrite Hperm. apply elem_of_seq. lia.
  - exists urls. rewrite Hlen in Hrun. rewrite Hcalls in *. done.
Qed.

(** ** The gate *)

Lemma calls_trace_gate (n : nat) (params : GenerateContentParameters.t)
    (calls : list (async GenerateContentResponse.t string))
    (arrivals : list (nat * reply GenerateContentResponse.t)) :
  Forall (λ c, resume c = on_reply) calls →
  gate_runs (replicate n (GenerateContent params) ++ settle_trace calls arrivals)
  = 0%nat.
Proof.
  intros Hcalls. by rewrite gate_runs_app, gate_runs_replicate, settle_trace_gate.
Qed.

Lemma calls_trace_requests (n : nat) (params : GenerateContentParameters.t)
    (calls : list (async GenerateContentResponse.t string))
    (arrivals : list (nat * reply GenerateContentResponse.t)) :
  Forall (λ c, resume c = on_reply) calls →
  requests_of (replicate n (GenerateContent params) ++ settle_trace calls arrivals)
  = replicate n params.
Proof.
  intros Hcalls.
  by rewrite requests_of_app, requests_of_replicate, settle_trace_requests, app_nil_r.
Qed.

(** C6. A request above the 1K tier runs the credential gate exactly once,
    as the first effect of [generateImages]: the gate has completed before
    the first of the [count] backend calls is issued, and it does not run
    again. A 1K request never runs the gate. *)
Theorem gate_once_before_calls (w : world) (count : Z)
    (options : GenerateImageOptions.t) :
  (GenerateImageOptions.resolution options ≠ RES_1K →
   ∃ calls later,
     trace (generateImages w count options) = EnsureApiKey calls :: later
     ∧ trace (ensureApiKey w) = [EnsureApiKey calls]
     ∧ gate_runs later = 0%nat
     ∧ length (requests_of later) = Z.to_nat count
     ∧ gate_runs (trace (generateImages w count options)) = 1%nat)
  ∧ (GenerateImageOptions.resolution options = RES_1K →
     gate_runs (trace (generateImages w count options)) = 0%nat
     ∧ length (requests_of (trace (generateImages w count options)))
       = Z.to_nat count).
Proof.
  split; intros Hres.
  - destruct (ensureApiKey_run w) as [calls Hgate].
    assert (Htrace := generateImages_trace w count options).
    unfold usePro in Htrace. rewrite bool_decide_true in Htrace by done.
    rewrite Hgate in Htrace. cbn [trace app] in Htrace.
    eexists calls, _. split; [exact Htrace|]. split; [by rewrite Hgate|].
    rewrite calls_trace_gate, calls_trace_requests by apply image_calls_resume.
    rewrite length_replicate. split; [done|]. split; [done|].
    rewrite Htrace.
    change (EnsureApiKey calls :: ?l) with ([EnsureApiKey calls] ++ l).
    rewrite gate_runs_app, calls_trace_gate by apply image_calls_resume.
    reflexivity.
  - rewrite generateImages_trace. unfold usePro.
    rewrite bool_decide_false by (intros H; by apply H). cbn [app].
    rewrite calls_trace_gate, calls_trace_requests by apply image_calls_resume.
    by rewrite length_replicate.
Qed.

Lemma gate_once_before_calls_witness :
  let w := sample_world (Some {| AiStudio.hasSelectedApiKey := false |}) [] [] in
  (∃ calls later,
     trace (generateImages w 3 (sample_options SQUARE None None RES_2K))
       = EnsureApiKey calls :: later
     ∧ trace (ensureApiKey w) = [EnsureApiKey calls]
     ∧ gate_runs later = 0%nat
     ∧ length (requests_of later) = Z.to_nat 3
     ∧ gate_runs (trace (generateImages w 3 (sample_options SQUARE None None RES_2K)))
       = 1%nat)
  ∧ gate_runs (trace (generateImages w 3 (sample_options SQUARE None None RES_1K)))
    = 0%nat
  ∧ length (requests_of
              (trace (generateImages w 3 (sample_options SQUARE None None RES_1K))))
    = Z.to_nat 3.
Proof.
  intros w. split.
  - apply (proj1 (gate_once_before_calls w 3 (sample_options SQUARE None None RES_2K))).
    simpl. discriminate.
  - apply (proj2 (gate_once_before_calls w 3 (sample_options SQUARE None None RES_1K))).
    reflexivity.
Defined.

(** ** Extraction, claim by claim *)

Lemma has_inline_data_image_part (payload : string) (mime : option string) :
  payload ≠ EmptyString → has_inline_data (image_part payload mime) = true.
Proof.
  intros Hpayload.
  unfold has_inline_data, image_part, truthy_opt_string, truthy_string.
  cbn [Part.inlineData Blob.data]. by rewrite bool_decide_false.
Qed.

(** C7. A call scans the parts of the response in order and answers with
    the data URL of the first part that carries inline data, with
    [image/png] as media type when the backend gives none; a batch of one
    whose response holds one inline [image/png] part is fulfilled with
    exactly one reference of that media type; a response without inline data
    in any part makes the call fail with the no-image-data error. *)
Theorem first_inline_image_extracted :
  (∀ response pre part post,
     first_candidate_parts response = Some (pre ++ part :: post) →
     no_inline_data pre → has_inline_data part = true →
     on_reply (Resolves response) = Run [] (Fulfilled (data_url part)))
  ∧ (∀ payload, data_url (image_part payload None)
                = "data:image/png;base64," +:+ payload)
  ∧ (∀ payload mime, mime ≠ EmptyString →
       data_url (image_part payload (Some mime))
       = "data:" +:+ mime +:+ ";base64," +:+ payload)
  ∧ (∀ w options payload,
       payload ≠ EmptyString →
       image_replies w
         = [(0%nat, Resolves (response_of [[image_part payload (Some "image/png")]]))] →
       result (generateImages w 1 options)
       = Fulfilled ["data:image/png;base64," +:+ payload])
  ∧ (∀ response,
       (∀ parts, first_candidate_parts response = Some parts → no_inline_data parts) →
       on_reply (Resolves response) = NO_IMAGE_RUN).
Proof.
  repeat apply conj.
  - intros response pre part post Hparts Hpre Hpart.
    eapply on_reply_found; [exact Hparts|]. by apply scan_parts_first.
  - reflexivity.
  - intros payload mime Hmime.
    unfold data_url, image_part, or_string, truthy_string.
    cbn [Part.inlineData Blob.data Blob.mimeType].
    by rewrite bool_decide_false.
  - intros w options payload Hpayload Hw.
    rewrite (generateImages_single w options _ Hw). unfold call_result.
    rewrite (on_reply_found _ [image_part payload (Some "image/png")]
               ("data:image/png;base64," +:+ payload)); [done | done |].
    simpl. by rewrite has_inline_data_image_part.
  - intros response Hnone. apply on_reply_not_found.
    intros parts Hparts. apply scan_parts_none, Hnone, Hparts.
Qed.

Lemma first_inline_image_extracted_witness :
  let png := image_part "QUFB" (Some "image/png") in
  on_reply (Resolves (response_of [[text_part "here"; png; image_part "QkJC" None]]))
    = Run [] (Fulfilled "data:image/png;base64,QUFB")
  ∧ data_url (image_part "QUFB" (Some "image/jpeg")) = "data:image/jpeg;base64,QUFB"
  ∧ result (generateImages
              (sample_world None [(0%nat, Resolves (response_of [[png]]))] []) 1
              (sample_options SQUARE None None RES_1K))
    = Fulfilled ["data:image/png;base64,QUFB"]
  ∧ on_reply (Resolves (response_of [[text_part "sorry"]])) = NO_IMAGE_RUN.
Proof.
  intros png. repeat apply conj.
  - apply (proj1 first_inline_image_extracted
             (response_of [[text_part "here"; png; image_part "QkJC" None]])
             [text_part "here"] png [image_part "QkJC" None]);
      [reflexivity | repeat constructor | reflexivity].
  - apply (proj1 (proj2 (proj2 first_inline_image_extracted)) "QUFB" "image/jpeg").
    discriminate.
  - apply (proj1 (proj2 (proj2 (proj2 first_inline_image_extracted)))
             (sample_world None [(0%nat, Resolves (response_of [[png]]))] [])
             (sample_options SQUARE None None RES_1K) "QUFB");
      [discriminate | reflexivity].
  - apply (proj2 (proj2 (proj2 (proj2 first_inline_image_extracted)))
             (response_of [[text_part "sorry"]])).
    intros parts [= <-]. repeat constructor.
Defined.

(** C10. Extraction looks at the first candidate only: when the first
    candidate has no part with inline data the call fails with the
    no-image-data error, whatever the later candidates hold; a response with
    no candidates (absent or empty) fails with the same error. *)
Theorem only_first_candidate :
  (∀ response first others,
     GenerateContentResponse.candidates response = Some (first :: others) →
     (∀ parts, Candidate.content first ≫= Content.parts = Some parts →
               no_inline_data parts) →
     on_reply (Resolves response) = NO_IMAGE_RUN)
  ∧ (∀ response,
       GenerateContentResponse.candidates response = None
         ∨ GenerateContentResponse.candidates response = Some [] →
       on_reply (Resolves response) = NO_IMAGE_RUN)
  ∧ (∀ w options response,
       image_replies w = [(0%nat, Resolves response)] →
       on_reply (Resolves response) = NO_IMAGE_RUN →
       result (generateImages w 1 options) = Rejected NO_IMAGE_DATA).
Proof.
  repeat apply conj.
  - intros response first others Hcands Hfirst.
    apply on_reply_not_found. intros parts Hparts. apply scan_parts_none, Hfirst.
    unfold first_candidate_parts in Hparts. by rewrite Hcands in Hparts.
  - intros response Hcands. apply on_reply_not_found. intros parts Hparts.
    unfold first_candidate_parts in Hparts.
    by destruct Hcands as [Hc|Hc]; rewrite Hc in Hparts.
  - intros w options response Hw Hrun.
    rewrite (generateImages_single w options _ Hw). unfold call_result.
    by rewrite Hrun.
Qed.

Lemma only_first_candidate_witness :
  let late := response_of [[text_part "first"]; [image_part "QUFB" (Some "image/png")]] in
  let none := {| GenerateContentResponse.candidates := None |} in
  on_reply (Resolves late) = NO_IMAGE_RUN
  ∧ on_reply (Resolves none) = NO_IMAGE_RUN
  ∧ on_reply (Resolves (response_of [])) = NO_IMAGE_RUN
  ∧ result (generateImages (sample_world None [(0%nat, Resolves late)] []) 1
              (sample_options SQUARE None None RES_1K))
    = Rejected NO_IMAGE_DATA.
Proof.
  intros late none.
  assert (Hlate : on_reply (Resolves late) = NO_IMAGE_RUN).
  { apply (proj1 only_first_candidate late
             {| Candidate.content := Some {| Content.parts := Some [text_part "first"] |} |}
             [ {| Candidate.content :=
                    Some {| Content.parts := Some [image_part "QUFB" (Some "image/png")] |} |} ]);
      [reflexivity|].
    intros parts [= <-]. repeat constructor. }
  repeat apply conj.
  - exact Hlate.
  - apply (proj1 (proj2 only_first_candidate) none). left. reflexivity.
  - apply (proj1 (proj2 only_first_candidate) (response_of [])). right. reflexivity.
  - apply (proj2 (proj2 only_first_candidate)
             (sample_world None [(0%nat, Resolves late)] [])
             (sample_options SQUARE None None RES_1K) late);
      [reflexivity | exact Hlate].
Defined.

(** ** The video driver *)

Lemma trace_try_catch {A : Type} (body : run A) (handler : js_error → run A) :
  trace (try_catch body handler) =
  trace body ++ match result body with Rejected e => trace (handler e) | _ => [] end.
Proof. unfold try_catch. destruct (result body); simpl; by rewrite ?app_nil_r. Qed.

Lemma poll_done (operation : Operation.t) (replies : list (reply Operation.t)) :
  is_done operation = true → poll operation replies = mret operation.
Proof. unfold is_done. intros H. destruct replies; simpl; by rewrite H. Qed.

Lemma poll_step (operation next : Operation.t) (later : list (reply Operation.t)) :
  is_done operation = false →
  poll operation (Resolves next :: later) =
  Run (SetTimeout POLL_INTERVAL :: GetVideosOperation operation :: trace (poll next later))
      (result (poll next later)).
Proof.
  unfold is_done. intros H. cbn [poll]. rewrite H. cbn [negb].
  unfold mbind, run_bind, perform, await, mret, run_ret. simpl. done.
Qed.

(** Handles that are not done cost one sleep/poll cycle each; the first
    handle that is done ends the loop. *)
Lemma poll_until_done (first : Operation.t) (waiting : list Operation.t)
    (final : Operation.t) (later : list (reply Operation.t)) :
  Forall (λ h, is_done h = false) (first :: waiting) →
  is_done final = true →
  poll first (map Resolves (waiting ++ [final]) ++ later)
  = Run (cycles (first :: waiting)) (Fulfilled final).
Proof.
  intros Hwait Hfinal. revert first Hwait.
  induction waiting as [|next waiting IH]; intros first Hwait.
  - apply Forall_cons in Hwait as [Hfirst _]. cbn [map app].
    rewrite poll_step by done. by rewrite poll_done.
  - apply Forall_cons in Hwait as [Hfirst Hwait]. cbn [map app].
    rewrite poll_step by done. by rewrite (IH next Hwait).
Qed.

Lemma poll_payloads (operation : Operation.t) (replies : list (reply Operation.t)) :
  payloads_of (trace (poll operation replies)) = [].
Proof.
  revert operation. induction replies as [|r later IH]; intros operation;
    cbn [poll]; destruct (negb _); try done.
  destruct r as [next|e]; [|done].
  rewrite !trace_bind. simpl. apply IH.
Qed.

Lemma payloads_of_app (t1 t2 : list event) :
  payloads_of (t1 ++ t2) = payloads_of t1 ++ payloads_of t2.
Proof. apply omap_app. Qed.

Lemma generateVideo_payloads (w : world) (options : GenerateVideoOptions.t) :
  payloads_of (trace (generateVideo w options)) = [video_payload options].
Proof.
  unfold generateVideo. rewrite trace_bind.
  destruct (ensureApiKey_run w) as [calls ->]. cbn [trace result].
  rewrite trace_try_catch, trace_bind. cbn [perform trace result].
  rewrite !payloads_of_app.
  assert (Hcatch : ∀ o : outcome string,
    payloads_of match o with
                | Rejected e =>
                    trace (perform (ConsoleError "Video generation failed" e);;
                           (throw e : run string))
                | _ => []
                end = []) by (by intros [? | ? | ]).
  rewrite Hcatch, app_nil_r.
  change (payloads_of [EnsureApiKey calls]) with (@nil VideoPayload.t).
  change (payloads_of [GenerateVideos (video_payload options)])
    with [video_payload options].
  cbn [app]. f_equal.
  destruct (video_replies w) as [|[operation|e] polls]; try done.
  rewrite !trace_bind. cbn [await trace result mret run_ret app].
  rewrite trace_bind, payloads_of_app, poll_payloads. cbn [app].
  destruct (result (poll operation polls)); [|done|done].
  by destruct (negb _).
Qed.

(** C2. The job-handle sequence is what the loop tests in turn: the handle
    of the submission, then the handle of each refresh. When the first two
    are not done and the third is done and holds a video URI, the driver
    runs exactly two sleep/poll cycles, each a 5000 ms sleep followed by a
    refresh keyed by the handle it held, and returns the URI followed by
    [&key=] and the API key. *)
Theorem video_two_poll_cycles (w : world) (options : GenerateVideoOptions.t)
    (h0 h1 h2 : Operation.t) (later : list (reply Operation.t)) (uri : string) :
  video_replies w = Resolves h0 :: Resolves h1 :: Resolves h2 :: later →
  is_done h0 = false → is_done h1 = false → is_done h2 = true →
  primary_video_uri h2 = Some uri → uri ≠ EmptyString →
  (∃ calls,
     generateVideo w options =
     Run [EnsureApiKey calls;
          GenerateVideos (video_payload options);
          SetTimeout 5000; GetVideosOperation h0;
          SetTimeout 5000; GetVideosOperation h1]
         (Fulfilled (uri +:+ "&key=" +:+ template_opt_string (API_KEY w))))
  ∧ (∀ key, API_KEY w = Some key →
       result (generateVideo w options) = Fulfilled (uri +:+ "&key=" +:+ key)).
Proof.
  intros Hreplies H0 H1 H2 Huri Hne.
  assert (Hrun : ∃ calls,
     generateVideo w options =
     Run [EnsureApiKey calls;
          GenerateVideos (video_payload options);
          SetTimeout 5000; GetVideosOperation h0;
          SetTimeout 5000; GetVideosOperation h1]
         (Fulfilled (uri +:+ "&key=" +:+ template_opt_string (API_KEY w)))).
  { destruct (ensureApiKey_run w) as [calls Hgate]. exists calls.
    unfold generateVideo. rewrite Hgate, Hreplies.
    assert (Hpoll := poll_until_done h0 [h1] h2 later).
    cbn [map app] in Hpoll.
    unfold mbind, run_bind, try_catch, perform, await, mret, run_ret.
    cbn [trace result app].
    rewrite Hpoll by (repeat constructor; done).
    cbn [trace result app]. rewrite Huri.
    unfold truthy_opt_string, truthy_string.
    rewrite bool_decide_false by done. reflexivity. }
  split; [exact Hrun|].
  intros key Hkey. destruct Hrun as [calls ->]. simpl. by rewrite Hkey.
Qed.

Lemma video_two_poll_cycles_witness :
  let h0 := sample_operation None None in
  let h1 := sample_operation (Some false) None in
  let h2 := sample_operation (Some true) (Some "https://video.example/v1?alt=media") in
  let w := sample_world (Some {| AiStudio.hasSelectedApiKey := true |}) []
             [Resolves h0; Resolves h1; Resolves h2] in
  let options := {| GenerateVideoOptions.prompt := "a kite";
                    GenerateVideoOptions.inputImage := None;
                    GenerateVideoOptions.aspectRatio := WIDE_16_9 |} in
  (∃ calls,
     generateVideo w options =
     Run [EnsureApiKey calls;
          GenerateVideos (video_payload options);
          SetTimeout 5000; GetVideosOperation h0;
          SetTimeout 5000; GetVideosOperation h1]
         (Fulfilled ("https://video.example/v1?alt=media" +:+ "&key="
                       +:+ template_opt_string (API_KEY w))))
  ∧ (∀ key, API_KEY w = Some key →
       result (generateVideo w options)
       = Fulfilled ("https://video.example/v1?alt=media" +:+ "&key=" +:+ key)).
Proof.
  intros h0 h1 h2 w options.
  apply (video_two_poll_cycles w options h0 h1 h2 []
           "https://video.example/v1?alt=media");
    [reflexivity | reflexivity | reflexivity | reflexivity | reflexivity | discriminate].
Defined.

(** ** The caller's prompt *)

Lemma handleGenerate_payload (w : world) (state : VideoGenerator.t) :
  payloads_of (trace (handleGenerate w state))
  = [video_payload (handleGenerate_options state)].
Proof. apply generateVideo_payloads. Qed.

(** With a prompt, the payload carries it verbatim. *)
Lemma handleGenerate_prompt_verbatim (state : VideoGenerator.t) :
  VideoGenerator.prompt state ≠ EmptyString →
  VideoPayload.prompt (video_payload (handleGenerate_options state))
  = VideoGenerator.prompt state.
Proof.
  intros Hp. unfold video_payload, handleGenerate_options, or_string, truthy_string.
  cbn [GenerateVideoOptions.inputImage GenerateVideoOptions.prompt].
  rewrite bool_decide_false by done.
  by destruct (VideoGenerator.inputImage state).
Qed.

(** With an image and no prompt, the payload carries the fallback prompt. *)
Lemma handleGenerate_prompt_image_only (state : VideoGenerator.t) (img : ImageData.t) :
  VideoGenerator.prompt state = EmptyString →
  VideoGenerator.inputImage state = Some img →
  VideoPayload.prompt (video_payload (handleGenerate_options state))
  = FALLBACK_PROMPT.
Proof.
  intros Hp Hi. unfold video_payload, handleGenerate_options.
  cbn [GenerateVideoOptions.inputImage GenerateVideoOptions.prompt].
  by rewrite Hp, Hi.
Qed.

(** What [handleGenerate] submits is the described prompt on every state
    but one kind: an empty prompt without an input image. *)
Lemma submitted_prompt_vs_described (state : VideoGenerator.t) :
  VideoPayload.prompt (video_payload (handleGenerate_options state))
    = described_prompt state
  ↔ ¬ (VideoGenerator.prompt state = EmptyString
       ∧ VideoGenerator.inputImage state = None).
Proof.
  unfold described_prompt.
  destruct (decide (VideoGenerator.prompt state = EmptyString)) as [Hp|Hp].
  - destruct (VideoGenerator.inputImage state) as [img|] eqn:Hi.
    + rewrite (handleGenerate_prompt_image_only state img Hp Hi).
      rewrite bool_decide_true by done. split; [|done]. by intros _ [_ [=]].
    + unfold video_payload, handleGenerate_options.
      cbn [GenerateVideoOptions.inputImage GenerateVideoOptions.prompt].
      rewrite Hi, Hp. cbn. split; [discriminate | intros H; by destruct H].
  - rewrite (handleGenerate_prompt_verbatim state Hp).
    rewrite bool_decide_false by done.
    split; [by intros _ [? _] | by destruct (VideoGenerator.inputImage state)].
Qed.

(** C9, at the input where the code departs from it. With an empty prompt
    and no input image, [handleGenerate] still submits the fallback prompt:
    the one payload of the run has prompt ["Animate this image"] and no
    image, where the described prompt is the caller's empty prompt. *)
Theorem fallback_prompt_without_image (w : world) (ar : VideoAspect) :
  let state := {| VideoGenerator.prompt := EmptyString;
                  VideoGenerator.inputImage := None;
                  VideoGenerator.aspectRatio := ar |} in
  payloads_of (trace (handleGenerate w state))
  = [ {| VideoPayload.model := MODEL_VEO_FAST;
         VideoPayload.prompt := "Animate this image";
         VideoPayload.config :=
           {| VideoConfig.numberOfVideos := 1;
              VideoConfig.resolution := RES_720P;
              VideoConfig.aspectRatio := ar |};
         VideoPayload.image := None |} ]
  ∧ described_prompt state = EmptyString.
Proof. intros state. by rewrite handleGenerate_payload. Qed.

(** * Further properties of the service *)

(** ** The batch, beyond failure *)

(** X1. When every call is answered and every answer holds an image, the batch
    is fulfilled with one data URL per call, and the URL of a call sits at
    the index of that call, whatever the order in which the answers
    arrived. *)
Theorem batch_in_call_order (w : world) (count : Z) (options : GenerateImageOptions.t) :
  arrivals_ok (Z.to_nat count) (image_replies w) →
  length (image_replies w) = Z.to_nat count →
  Forall (λ a, ∃ url, call_result a.2 = Fulfilled url) (image_replies w) →
  ∃ urls,
    result (generateImages w count options) = Fulfilled urls
    ∧ length urls = Z.to_nat count
    ∧ (∀ i r, (i, r) ∈ image_replies w →
              ∃ url, call_result r = Fulfilled url ∧ urls !! i = Some url).
Proof. apply batch_fulfilled. Qed.

Lemma batch_in_call_order_witness :
  let w := sample_world None
             [(1%nat, Resolves (response_of [[image_part "QkJC" None]]));
              (0%nat, Resolves (response_of [[image_part "QUFB" (Some "image/jpeg")]]))] [] in
  let options := sample_options SQUARE None None RES_1K in
  ∃ urls,
    result (generateImages w 2 options) = Fulfilled urls
    ∧ length urls = Z.to_nat 2
    ∧ (∀ i r, (i, r) ∈ image_replies w →
              ∃ url, call_result r = Fulfilled url ∧ urls !! i = Some url).
Proof.
  intros w options. apply (batch_in_call_order w 2 options).
  - split; apply (bool_decide_unpack _); vm_compute; exact I.
  - reflexivity.
  - repeat constructor; eexists; reflexivity.
Defined.

Lemma all_settle_waits (calls : list (async GenerateContentResponse.t string))
    (arrivals : list (nat * reply GenerateContentResponse.t))
    (values : list (option string)) (remaining : nat) :
  Forall (λ c, resume c = on_reply) calls →
  Forall (λ a, ∃ url, call_result a.2 = Fulfilled url) arrivals →
  (length arrivals < remaining)%nat →
  all_settle calls arrivals values remaining = Pending.
Proof.
  intros Hcalls Hall. revert values remaining.
  induction Hall as [|[i r] later [url Hurl] _ IH]; intros values remaining Hlen;
    simpl in *; [done|].
  destruct (calls !! i) as [c|] eqn:Hc; [|apply IH; lia].
  rewrite (proj1 (Forall_lookup _ _) Hcalls i c Hc).
  fold (call_result r). rewrite Hurl.
  destruct (Nat.eqb_spec (remaining - 1) 0) as [H0|_]; [lia|].
  apply IH. lia.
Qed.

(** X2. The batch waits for every call: while fewer replies than calls have
    arrived and each of them holds an image, the promise of
    [generateImages] is neither fulfilled nor rejected. *)
Theorem batch_waits_for_all (w : world) (count : Z) (options : GenerateImageOptions.t) :
  Forall (λ a, ∃ url, call_result a.2 = Fulfilled url) (image_replies w) →
  (length (image_replies w) < Z.to_nat count)%nat →
  result (generateImages w count options) = Pending.
Proof.
  intros Hall Hlen. rewrite generateImages_result. unfold Promise_all. cbn [result].
  set (calls := map _ (seq 0 (Z.to_nat count))).
  assert (Hcalls : length calls = Z.to_nat count)
    by (subst calls; by rewrite length_map, length_seq).
  destruct calls as [|c calls'] eqn:Ecalls; [simpl in Hcalls; lia|].
  rewrite <- Ecalls in *.
  apply all_settle_waits; [subst calls; apply image_calls_resume | done | lia].
Qed.

Lemma batch_waits_for_all_witness :
  let w := sample_world None
             [(2%nat, Resolves (response_of [[image_part "QUFB" None]]));
              (0%nat, Resolves (response_of [[image_part "QkJC" None]]))] [] in
  result (generateImages w 3 (sample_options SQUARE None None RES_1K)) = Pending.
Proof.
  intros w. apply (batch_waits_for_all w 3).
  - repeat constructor; eexists; reflexivity.
  - simpl. lia.
Defined.

(** X3. A batch of no calls: for a count of zero or less no backend call is
    issued and the promise is fulfilled at once with the empty list, whatever
    the backend has in store. *)
Theorem empty_batch (w : world) (count : Z) (options : GenerateImageOptions.t) :
  count ≤ 0 →
  requests_of (trace (generateImages w count options)) = []
  ∧ errors_logged (trace (generateImages w count options)) = []
  ∧ result (generateImages w count options) = Fulfilled [].
Proof.
  intros Hcount.
  assert (Hn : Z.to_nat count = 0%nat) by lia.
  rewrite generateImages_requests, generateImages_result, generateImages_trace, Hn.
  cbn [replicate seq map app]. split; [done|]. split; [|done].
  assert (Hsettle : settle_trace
            ([] : list (async GenerateContentResponse.t string))
            (image_replies w) = []).
  { induction (image_replies w) as [|[i r] later IH]; [done|]. simpl. exact IH. }
  rewrite Hsettle, app_nil_r.
  destruct (usePro options); [|done].
  destruct (ensureApiKey_run w) as [calls ->]. done.
Qed.

Lemma empty_batch_witness :
  let w := sample_world None
             [(0%nat, Rejects (ServiceFailure "503"))] [] in
  requests_of (trace (generateImages w 0 (sample_options SQUARE None None RES_4K))) = []
  ∧ errors_logged (trace (generateImages w 0 (sample_options SQUARE None None RES_4K))) = []
  ∧ result (generateImages w 0 (sample_options SQUARE None None RES_4K)) = Fulfilled [].
Proof. intros w. apply (empty_batch w 0). lia. Defined.

(** X4. The backend calls of a run depend on the count and the options alone:
    for a count that is an array length (at most [MAX_ARRAY_LENGTH]; a
    larger one makes [Array.from] throw) exactly [count] requests, all the
    same, whatever the backend answers; a call that fails is not issued
    again. *)
Theorem calls_fixed_by_request (count : Z) (options : GenerateImageOptions.t) :
  count ≤ MAX_ARRAY_LENGTH →
  ∃ params, ∀ w,
    requests_of (trace (generateImages w count options))
    = replicate (Z.to_nat count) params.
Proof. intros _. eexists. intros w. apply generateImages_requests. Qed.

Lemma calls_fixed_by_request_witness :
  ∃ params, ∀ w,
    requests_of (trace (generateImages w 3 (sample_options SQUARE None None RES_1K)))
    = replicate 3 params.
Proof.
  apply (calls_fixed_by_request 3 (sample_options SQUARE None None RES_1K)).
  unfold MAX_ARRAY_LENGTH. lia.
Defined.

Lemma errors_logged_app (t1 t2 : list event) :
  errors_logged (t1 ++ t2) = errors_logged t1 ++ errors_logged t2.
Proof. apply omap_app. Qed.

Lemma errors_logged_replicate (n : nat) (params : GenerateContentParameters.t) :
  errors_logged (replicate n (GenerateContent params)) = [].
Proof. induction n as [|n IH]; [done|]. exact IH. Qed.

Lemma settle_trace_errors (calls : list (async GenerateContentResponse.t string))
    (arrivals : list (nat * reply GenerateContentResponse.t)) :
  Forall (λ c, resume c = on_reply) calls →
  Forall (λ a, (a.1 < length calls)%nat) arrivals →
  errors_logged (settle_trace calls arrivals) = omap failure_of arrivals.
Proof.
  intros Hcalls Hrange.
  induction Hrange as [|[i r] later Hi _ IH]; [done|].
  change (settle_trace calls ((i, r) :: later))
    with (match calls !! i with
          | Some c => trace (resume c r)
          | None => []
          end ++ settle_trace calls later).
  change (omap failure_of ((i, r) :: later))
    with (match failure_of (i, r) with
          | Some e => e :: omap failure_of later
          | None => omap failure_of later
          end).
  rewrite errors_logged_app, IH. simpl in Hi.
  destruct (lookup_lt_is_Some_2 calls i Hi) as [c Hc]. rewrite Hc.
  rewrite (proj1 (Forall_lookup _ _) Hcalls i c Hc).
  unfold failure_of, call_result. cbn [snd].
  destruct (on_reply_cases r) as [[url Hr]|[e Hr]]; rewrite Hr; done.
Qed.

(** X5. Every call that fails is logged once with [console.error], in the order
    in which the failures arrive, and nothing else is logged. This holds for
    the failures that arrive after the batch has been rejected, too. *)
Theorem every_failure_logged (w : world) (count : Z) (options : GenerateImageOptions.t) :
  Forall (λ a, (a.1 < Z.to_nat count)%nat) (image_replies w) →
  errors_logged (trace (generateImages w count options))
  = omap failure_of (image_replies w).
Proof.
  intros Hrange.
  rewrite generateImages_trace, !errors_logged_app, errors_logged_replicate.
  rewrite settle_trace_errors.
  - destruct (usePro options); [|done].
    destruct (ensureApiKey_run w) as [calls ->]. done.
  - apply image_calls_resume.
  - by rewrite length_map, length_seq.
Qed.

Lemma every_failure_logged_witness :
  let w := sample_world None
             [(2%nat, Rejects (ServiceFailure "503"));
              (0%nat, Resolves (response_of [[image_part "QUFB" None]]));
              (1%nat, Resolves (response_of [[text_part "sorry"]]))] [] in
  errors_logged (trace (generateImages w 3 (sample_options SQUARE None None RES_1K)))
  = [ServiceFailure "503"; NO_IMAGE_DATA].
Proof.
  intros w. apply (every_failure_logged w 3 (sample_options SQUARE None None RES_1K)).
  repeat constructor; simpl; lia.
Defined.

Lemma placed_ratio (w : world) (count : Z) (options : GenerateImageOptions.t) :
  (ImageConfig.aspectRatio ∘ GenerateContentConfig.imageConfig
     ∘ GenerateContentParameters.config)
    <$> requests_of (trace (generateImages w count options))
  = replicate (Z.to_nat count) (ratioStr options).
Proof.
  rewrite generateImages_requests, fmap_replicate. f_equal.
  simpl. unfold build_config. by destruct (usePro options).
Qed.

(** X6. Inputs without effect: the editing flag is never read, and width and
    height are read for the custom ratio only. Requests that differ in
    [isEditing] alone, or (for an enumerated ratio) in [isEditing], [width]
    and [height] alone, give the same run. *)
Theorem inputs_without_effect (w : world) (count : Z) p ar wd ht res refs ctx ed :
  (∀ ed',
     generateImages w count
       {| GenerateImageOptions.prompt := p; GenerateImageOptions.aspectRatio := ar;
          GenerateImageOptions.width := wd; GenerateImageOptions.height := ht;
          GenerateImageOptions.resolution := res; GenerateImageOptions.refImages := refs;
          GenerateImageOptions.contextImage := ctx; GenerateImageOptions.isEditing := ed |}
     = generateImages w count
       {| GenerateImageOptions.prompt := p; GenerateImageOptions.aspectRatio := ar;
          GenerateImageOptions.width := wd; GenerateImageOptions.height := ht;
          GenerateImageOptions.resolution := res; GenerateImageOptions.refImages := refs;
          GenerateImageOptions.contextImage := ctx; GenerateImageOptions.isEditing := ed' |})
  ∧ (ar ≠ CUSTOM →
     ∀ wd' ht' ed',
       generateImages w count
         {| GenerateImageOptions.prompt := p; GenerateImageOptions.aspectRatio := ar;
            GenerateImageOptions.width := wd; GenerateImageOptions.height := ht;
            GenerateImageOptions.resolution := res; GenerateImageOptions.refImages := refs;
            GenerateImageOptions.contextImage := ctx; GenerateImageOptions.isEditing := ed |}
       = generateImages w count
         {| GenerateImageOptions.prompt := p; GenerateImageOptions.aspectRatio := ar;
            GenerateImageOptions.width := wd'; GenerateImageOptions.height := ht';
            GenerateImageOptions.resolution := res; GenerateImageOptions.refImages := refs;
            GenerateImageOptions.contextImage := ctx;
            GenerateImageOptions.isEditing := ed' |}).
Proof.
  split; [reflexivity|].
  intros Har wd' ht' ed'. destruct ar; try reflexivity. by destruct Har.
Qed.

Lemma inputs_without_effect_witness :
  let w := sample_world None [] [] in
  generateImages w 2 (sample_options LANDSCAPE (Some 0) None RES_1K)
  = generateImages w 2 (sample_options LANDSCAPE (Some 1280) (Some 720) RES_1K).
Proof.
  intros w.
  apply (proj2 (inputs_without_effect w 2 "p" LANDSCAPE (Some 0) None RES_1K _ _ None)).
  discriminate.
Defined.

(** X7. The custom ratio at its edges. A zero width or height counts as missing
    and the payload carries ["1:1"]; every other pair of safe integers,
    negative ones included, is sent raw as [width:height]. *)
Theorem custom_ratio_edges (w : world) (count : Z) (options : GenerateImageOptions.t)
    (wd ht : Z) :
  GenerateImageOptions.aspectRatio options = CUSTOM →
  GenerateImageOptions.width options = Some wd →
  GenerateImageOptions.height options = Some ht →
  safe_integer wd → safe_integer ht →
  (ImageConfig.aspectRatio ∘ GenerateContentConfig.imageConfig
     ∘ GenerateContentParameters.config)
    <$> requests_of (trace (generateImages w count options))
  = replicate (Z.to_nat count)
      (if bool_decide (wd = 0 ∨ ht = 0) then "1:1"
       else pretty wd +:+ ":" +:+ pretty ht).
Proof.
  intros Har Hwd Hht _ _.
  rewrite placed_ratio. f_equal.
  case_bool_decide as Hzero.
  - unfold ratioStr. rewrite Har, Hwd, Hht. cbn.
    destruct Hzero as [-> | ->]; [done|]. by rewrite andb_false_r.
  - apply ratioStr_custom; try done; intros ->; apply Hzero; auto.
Qed.

Lemma custom_ratio_edges_witness :
  let w := sample_world None [] [] in
  (ImageConfig.aspectRatio ∘ GenerateContentConfig.imageConfig
     ∘ GenerateContentParameters.config)
    <$> requests_of (trace (generateImages w 1
                              (sample_options CUSTOM (Some 1280) (Some 0) RES_1K)))
  = ["1:1"]
  ∧ (ImageConfig.aspectRatio ∘ GenerateContentConfig.imageConfig
       ∘ GenerateContentParameters.config)
      <$> requests_of (trace (generateImages w 1
                                (sample_options CUSTOM (Some (-16)) (Some 9) RES_1K)))
    = ["-16:9"].
Proof.
  intros w. split.
  - apply (custom_ratio_edges w 1 (sample_options CUSTOM (Some 1280) (Some 0) RES_1K)
             1280 0);
      first [reflexivity | unfold safe_integer, MAX_SAFE_INTEGER; lia].
  - apply (custom_ratio_edges w 1 (sample_options CUSTOM (Some (-16)) (Some 9) RES_1K)
             (-16) 9);
      first [reflexivity | unfold safe_integer, MAX_SAFE_INTEGER; lia].
Defined.

(** ** The video driver in general *)

Lemma cycles_app (hs1 hs2 : list Operation.t) :
  cycles (hs1 ++ hs2) = cycles hs1 ++ cycles hs2.
Proof. unfold cycles. apply flat_map_app. Qed.

(** A loop that meets handles that are not done spends one cycle on each
    and goes on with the next reply. *)
Lemma poll_chain (first : Operation.t) (waiting : list Operation.t)
    (h : Operation.t) (rest : list (reply Operation.t)) :
  Forall (λ x, is_done x = false) (first :: waiting) →
  poll first (map Resolves (waiting ++ [h]) ++ rest)
  = Run (cycles (first :: waiting) ++ trace (poll h rest)) (result (poll h rest)).
Proof.
  revert first. induction waiting as [|next waiting IH]; intros first Hwait;
    apply Forall_cons in Hwait as [Hfirst Hwait]; cbn [map app];
    rewrite poll_step by done.
  - done.
  - by rewrite (IH next Hwait).
Qed.

Lemma generateVideo_polled (w : world) (options : GenerateVideoOptions.t)
    (operation : Operation.t) (polls : list (reply Operation.t)) :
  video_replies w = Resolves operation :: polls →
  ∃ calls,
    trace (ensureApiKey w) = [EnsureApiKey calls]
    ∧ generateVideo w options
      = Run (EnsureApiKey calls :: GenerateVideos (video_payload options)
               :: trace (video_finish w (poll operation polls)))
            (result (video_finish w (poll operation polls))).
Proof.
  intros Hreplies. destruct (ensureApiKey_run w) as [calls Hgate]. exists calls.
  split; [by rewrite Hgate|].
  unfold generateVideo, video_finish. rewrite Hgate, Hreplies.
  unfold mbind, run_bind, try_catch, perform, await, mret, run_ret, throw.
  cbn [trace result app].
  destruct (poll operation polls) as [t [final|e|]]; cbn [trace result app];
    [|done..].
  destruct (truthy_opt_string (primary_video_uri final));
    cbn [negb trace result app]; by rewrite ?app_nil_r.
Qed.

Lemma generateVideo_after (w : world) (options : GenerateVideoOptions.t)
    (handles : list Operation.t) (h : Operation.t) (rest : list (reply Operation.t)) :
  video_replies w = map Resolves (handles ++ [h]) ++ rest →
  Forall (λ x, is_done x = false) handles →
  ∃ calls,
    trace (ensureApiKey w) = [EnsureApiKey calls]
    ∧ generateVideo w options
      = Run (EnsureApiKey calls :: GenerateVideos (video_payload options)
               :: trace (video_finish w
                           (Run (cycles handles ++ trace (poll h rest))
                                (result (poll h rest)))))
            (result (video_finish w
                       (Run (cycles handles ++ trace (poll h rest))
                            (result (poll h rest))))).
Proof.
  intros Hreplies Hwait. destruct handles as [|first waiting].
  - destruct (generateVideo_polled w options h rest Hreplies) as (calls & Hg & ->).
    exists calls. split; [done|]. by destruct (poll h rest).
  - destruct (generateVideo_polled w options first
                (map Resolves (waiting ++ [h]) ++ rest) Hreplies) as (calls & Hg & ->).
    exists calls. split; [done|]. by rewrite poll_chain.
Qed.

(** X9. One cycle per handle that is not done: when the job reports done for the
    first time on the handle that follows [handles], the driver has run one
    sleep/poll cycle for each of [handles], in order, and none after; a job
    already done at submission costs no sleep and no poll. *)
Theorem video_cycles_per_handle (w : world) (options : GenerateVideoOptions.t)
    (handles : list Operation.t) (final : Operation.t)
    (later : list (reply Operation.t)) (uri : string) :
  video_replies w = map Resolves (handles ++ [final]) ++ later →
  Forall (λ h, is_done h = false) handles →
  is_done final = true →
  primary_video_uri final = Some uri → uri ≠ EmptyString →
  ∃ calls,
    generateVideo w options
    = Run (EnsureApiKey calls :: GenerateVideos (video_payload options) :: cycles handles)
          (Fulfilled (uri +:+ "&key=" +:+ template_opt_string (API_KEY w))).
Proof.
  intros Hreplies Hwait Hdone Huri Hne.
  destruct (generateVideo_after w options handles final later Hreplies Hwait)
    as (calls & _ & ->).
  exists calls. rewrite poll_done by done. unfold video_finish.
  cbn [trace result mret run_ret]. rewrite Huri.
  unfold truthy_opt_string, truthy_string. rewrite bool_decide_false by done.
  cbn [negb trace result template_opt_string]. by rewrite app_nil_r.
Qed.

Lemma video_cycles_per_handle_witness :
  let final := sample_operation (Some true) (Some "https://video.example/v2") in
  let w := sample_world None [] [Resolves final] in
  let options := {| GenerateVideoOptions.prompt := "a kite";
                    GenerateVideoOptions.inputImage := None;
                    GenerateVideoOptions.aspectRatio := TALL_9_16 |} in
  ∃ calls,
    generateVideo w options
    = Run [EnsureApiKey calls; GenerateVideos (video_payload options)]
          (Fulfilled "https://video.example/v2&key=KEY").
Proof.
  intros final w options.
  apply (video_cycles_per_handle w options [] final [] "https://video.example/v2");
    [reflexivity | constructor | reflexivity | reflexivity | discriminate].
Defined.

(** X10. A finished job without a usable video URI (no response, no video, no
    URI, or an empty URI) makes the driver fail with the no-video error,
    after the cycles already spent; the error is logged once. *)
Theorem video_without_uri_fails (w : world) (options : GenerateVideoOptions.t)
    (handles : list Operation.t) (final : Operation.t)
    (later : list (reply Operation.t)) :
  video_replies w = map Resolves (handles ++ [final]) ++ later →
  Forall (λ h, is_done h = false) handles →
  is_done final = true →
  truthy_opt_string (primary_video_uri final) = false →
  ∃ calls,
    generateVideo w options
    = Run (EnsureApiKey calls :: GenerateVideos (video_payload options)
             :: cycles handles ++ [VIDEO_FAILED NO_VIDEO_URI])
          (Rejected NO_VIDEO_URI).
Proof.
  intros Hreplies Hwait Hdone Huri.
  destruct (generateVideo_after w options handles final later Hreplies Hwait)
    as (calls & _ & ->).
  exists calls. rewrite poll_done by done. unfold video_finish.
  cbn [trace result mret run_ret]. rewrite Huri.
  cbn [trace result]. by rewrite app_nil_r.
Qed.

Lemma video_without_uri_fails_witness :
  let h0 := sample_operation (Some false) None in
  let final := sample_operation (Some true) (Some EmptyString) in
  let w := sample_world None [] [Resolves h0; Resolves final] in
  let options := {| GenerateVideoOptions.prompt := "a kite";
                    GenerateVideoOptions.inputImage := None;
                    GenerateVideoOptions.aspectRatio := TALL_9_16 |} in
  ∃ calls,
    generateVideo w options
    = Run [EnsureApiKey calls; GenerateVideos (video_payload options);
           SetTimeout 5000; GetVideosOperation h0;
           ConsoleError "Video generation failed" (Error "No video URI in response")]
          (Rejected (Error "No video URI in response")).
Proof.
  intros h0 final w options.
  apply (video_without_uri_fails w options [h0] final []);
    [reflexivity | repeat constructor | reflexivity | reflexivity].
Defined.

(** X11. A submission that the backend rejects surfaces at once: the driver
    logs the error, rejects with that same error, and neither sleeps, polls
    nor submits again. *)
Theorem video_submission_failure (w : world) (options : GenerateVideoOptions.t)
    (e : js_error) (later : list (reply Operation.t)) :
  video_replies w = Rejects e :: later →
  ∃ calls,
    generateVideo w options
    = Run [EnsureApiKey calls; GenerateVideos (video_payload options); VIDEO_FAILED e]
          (Rejected e).
Proof.
  intros Hreplies. destruct (ensureApiKey_run w) as [calls Hgate]. exists calls.
  unfold generateVideo. by rewrite Hgate, Hreplies.
Qed.

Lemma video_submission_failure_witness :
  let w := sample_world None []
             [Rejects (ServiceFailure "quota");
              Resolves (sample_operation (Some true) (Some "https://video.example/v3"))] in
  let options := {| GenerateVideoOptions.prompt := "a kite";
                    GenerateVideoOptions.inputImage := None;
                    GenerateVideoOptions.aspectRatio := WIDE_16_9 |} in
  ∃ calls,
    generateVideo w options
    = Run [EnsureApiKey calls; GenerateVideos (video_payload options);
           VIDEO_FAILED (ServiceFailure "quota")]
          (Rejected (ServiceFailure "quota")).
Proof.
  intros w options.
  apply (video_submission_failure w options (ServiceFailure "quota")
           [Resolves (sample_operation (Some true) (Some "https://video.example/v3"))]).
  reflexivity.
Defined.

(** X12. A refresh that the backend rejects ends the driver: after one cycle for
    each handle held so far it logs the error and rejects with it; the
    replies that would follow are never asked for. *)
Theorem video_poll_failure (w : world) (options : GenerateVideoOptions.t)
    (handles : list Operation.t) (h : Operation.t) (e : js_error)
    (later : list (reply Operation.t)) :
  video_replies w = map Resolves (handles ++ [h]) ++ Rejects e :: later →
  Forall (λ x, is_done x = false) (handles ++ [h]) →
  ∃ calls,
    generateVideo w options
    = Run (EnsureApiKey calls :: GenerateVideos (video_payload options)
             :: cycles (handles ++ [h]) ++ [VIDEO_FAILED e])
          (Rejected e).
Proof.
  intros Hreplies Hwait. apply Forall_app in Hwait as [Hwait Hh].
  apply Forall_cons in Hh as [Hh _].
  destruct (generateVideo_after w options handles h _ Hreplies Hwait)
    as (calls & _ & ->).
  exists calls. unfold is_done in Hh. cbn [poll]. rewrite Hh. cbn [negb].
  unfold video_finish, mbind, run_bind, perform, await, throw.
  cbn [trace result app]. rewrite cycles_app. cbn [cycles flat_map app].
  by rewrite <- ?app_assoc.
Qed.

Lemma video_poll_failure_witness :
  let h0 := sample_operation None None in
  let h1 := sample_operation (Some false) None in
  let w := sample_world None []
             [Resolves h0; Resolves h1; Rejects (ServiceFailure "503");
              Resolves (sample_operation (Some true) (Some "https://video.example/v4"))] in
  let options := {| GenerateVideoOptions.prompt := "a kite";
                    GenerateVideoOptions.inputImage := None;
                    GenerateVideoOptions.aspectRatio := WIDE_16_9 |} in
  ∃ calls,
    generateVideo w options
    = Run [EnsureApiKey calls; GenerateVideos (video_payload options);
           SetTimeout 5000; GetVideosOperation h0;
           SetTimeout 5000; GetVideosOperation h1;
           VIDEO_FAILED (ServiceFailure "503")]
          (Rejected (ServiceFailure "503")).
Proof.
  intros h0 h1 w options.
  apply (video_poll_failure w options [h0] h1 (ServiceFailure "503")
           [Resolves (sample_operation (Some true) (Some "https://video.example/v4"))]);
    [reflexivity | repeat constructor].
Defined.

(** X13. No bound on the wait: as long as every handle the backend delivers is
    not done, the driver keeps cycling, one cycle per handle, and its
    promise is neither fulfilled nor rejected. *)
Theorem video_stalled_job_pends (w : world) (options : GenerateVideoOptions.t)
    (handles : list Operation.t) :
  video_replies w = map Resolves handles →
  Forall (λ h, is_done h = false) handles →
  ∃ calls,
    generateVideo w options
    = Run (EnsureApiKey calls :: GenerateVideos (video_payload options) :: cycles handles)
          Pending.
Proof.
  intros Hreplies Hwait.
  destruct (decide (handles = [])) as [->|Hne].
  - destruct (ensureApiKey_run w) as [calls Hgate]. exists calls.
    unfold generateVideo. by rewrite Hgate, Hreplies.
  - destruct (exists_last Hne) as (hs & h & ->).
    apply Forall_app in Hwait as [Hwait Hh]. apply Forall_cons in Hh as [Hh _].
    rewrite <- (app_nil_r (map Resolves (hs ++ [h]))) in Hreplies.
    destruct (generateVideo_after w options hs h [] Hreplies Hwait)
      as (calls & _ & ->).
    exists calls. unfold is_done in Hh. cbn [poll]. rewrite Hh. cbn [negb].
    unfold video_finish, mbind, run_bind, perform, pending.
    cbn [trace result app]. rewrite cycles_app. cbn [cycles flat_map app].
    by rewrite <- ?app_assoc.
Qed.

Lemma video_stalled_job_pends_witness :
  let h := sample_operation (Some false) None in
  let w := sample_world None [] [Resolves h; Resolves h; Resolves h] in
  let options := {| GenerateVideoOptions.prompt := "a kite";
                    GenerateVideoOptions.inputImage := None;
                    GenerateVideoOptions.aspectRatio := WIDE_16_9 |} in
  ∃ calls,
    generateVideo w options
    = Run (EnsureApiKey calls :: GenerateVideos (video_payload options)
             :: cycles [h; h; h])
          Pending.
Proof.
  intros h w options.
  apply (video_stalled_job_pends w options [h; h; h]);
    [reflexivity | repeat constructor].
Defined.

Lemma poll_shape (operation : Operation.t) (replies : list (reply Operation.t)) :
  ∃ handles,
    trace (poll operation replies) = cycles handles
    ∧ handles `prefix_of` (operation :: delivered replies)
    ∧ Forall (λ h, is_done h = false) handles.
Proof.
  revert operation. induction replies as [|r later IH]; intros operation.
  - destruct (is_done operation) eqn:Hd.
    + exists []. rewrite poll_done by done. split; [done|].
      split; [apply prefix_nil | constructor].
    + exists [operation]. unfold is_done in Hd. cbn [poll]. rewrite Hd.
      split; [done|]. split; [done|]. by repeat constructor.
  - destruct (is_done operation) eqn:Hd.
    + exists []. rewrite poll_done by done. split; [done|].
      split; [apply prefix_nil | constructor].
    + destruct r as [next|e].
      * destruct (IH next) as (hs & Htrace & Hprefix & Hnot).
        exists (operation :: hs). rewrite poll_step by done. cbn [trace].
        rewrite Htrace. split; [done|].
        split; [by apply prefix_cons | by constructor].
      * exists [operation]. unfold is_done in Hd. cbn [poll]. rewrite Hd.
        split; [done|]. split; [|by repeat constructor].
        apply prefix_cons, prefix_nil.
Qed.

(** X8. The shape of every run of the video driver, whatever the backend does:
    the credential gate first, then the one submission, then sleep/poll
    cycles only, each a 5000 ms sleep followed by one refresh; the handles
    polled are, in order, handles the backend delivered, each not done when
    polled; and the run logs one error, last, exactly when it is rejected. *)
Theorem video_run_shape (w : world) (options : GenerateVideoOptions.t) :
  ∃ calls handles,
    trace (generateVideo w options)
    = EnsureApiKey calls :: GenerateVideos (video_payload options)
        :: cycles handles
        ++ match result (generateVideo w options) with
           | Rejected e => [VIDEO_FAILED e]
           | _ => []
           end
    ∧ trace (ensureApiKey w) = [EnsureApiKey calls]
    ∧ handles `prefix_of` delivered (video_replies w)
    ∧ Forall (λ h, is_done h = false) handles.
Proof.
  destruct (video_replies w) as [|[operation|e] polls] eqn:Hreplies.
  - destruct (ensureApiKey_run w) as [calls Hgate]. exists calls, [].
    unfold generateVideo. rewrite Hgate, Hreplies.
    split; [done|]. split; [done|]. split; [done | constructor].
  - destruct (generateVideo_polled w options operation polls Hreplies)
      as (calls & Hgate & ->).
    destruct (poll_shape operation polls) as (handles & Htrace & Hprefix & Hnot).
    exists calls, handles. split; [|done].
    unfold video_finish. rewrite Htrace. cbn [trace result].
    destruct (result (poll operation polls)) as [final| |]; cbn [trace result];
      [|done|by rewrite app_nil_r].
    destruct (truthy_opt_string (primary_video_uri final)); cbn [trace result];
      [by rewrite app_nil_r | done].
  - destruct (ensureApiKey_run w) as [calls Hgate]. exists calls, [].
    unfold generateVideo. rewrite Hgate, Hreplies.
    split; [done|]. split; [done|]. split; [apply prefix_nil | constructor].
Qed.

(** * Properties of the helpers and of the image component *)

(** ** Strings *)

Lemma append_cons (x : Ascii.ascii) (a b : string) :
  String x a +:+ b = String x (a +:+ b).
Proof. reflexivity. Qed.

Lemma append_nil (b : string) : EmptyString +:+ b = b.
Proof. reflexivity. Qed.

Lemma append_assoc (a b c : string) : (a +:+ b) +:+ c = a +:+ (b +:+ c).
Proof.
  induction a as [|x a IH]; [done|]. by rewrite !append_cons, IH.
Qed.

Lemma strip_literal_append (lit s : string) : strip_literal lit (lit +:+ s) = Some s.
Proof.
  induction lit as [|a lit IH]; [done|].
  rewrite append_cons. cbn [strip_literal]. by rewrite Ascii.eqb_refl.
Qed.

Lemma span_append (f : Ascii.ascii → bool) (run rest : string) :
  all_chars f run = true →
  match rest with String c _ => f c = false | EmptyString => True end →
  span f (run +:+ rest) = (run, rest).
Proof.
  intros Hrun Hrest. induction run as [|c run IH].
  - rewrite append_nil. destruct rest as [|c rest]; [done|].
    cbn [span]. by rewrite Hrest.
  - cbn [all_chars] in Hrun. apply andb_true_iff in Hrun as [Hc Hrun].
    rewrite append_cons. cbn [span]. by rewrite Hc, (IH Hrun).
Qed.

Lemma split_on_whole (sep : Ascii.ascii) (s : string) :
  all_chars (not_char sep) s = true → split_on sep s = [s].
Proof.
  induction s as [|c s IH]; [done|]. cbn [all_chars split_on]. unfold not_char at 1.
  intros [Hc Hs]%andb_true_iff. apply negb_true_iff in Hc.
  by rewrite Hc, (IH Hs).
Qed.

Lemma split_on_first (sep : Ascii.ascii) (before after : string) :
  all_chars (not_char sep) before = true →
  split_on sep (before +:+ String sep after) = before :: split_on sep after.
Proof.
  induction before as [|c before IH].
  - intros _. rewrite append_nil. cbn [split_on]. by rewrite Ascii.eqb_refl.
  - cbn [all_chars]. unfold not_char at 1. intros [Hc Hs]%andb_true_iff.
    apply negb_true_iff in Hc. rewrite append_cons. cbn [split_on].
    by rewrite Hc, (IH Hs).
Qed.

(** ** [fileToBase64] *)

(** X14. Reading a file gives back the payload of its data URL: when the reader
    result is a header without comma, a comma, and a payload without comma,
    the promise resolves with the payload. A result without any comma
    resolves with [undefined], not with an error. *)
Theorem fileToBase64_payload (header payload : string) :
  all_chars (not_char ","%char) header = true →
  all_chars (not_char ","%char) payload = true →
  fileToBase64 (OnLoad (Some (header +:+ "," +:+ payload))) = Fulfilled (Some payload)
  ∧ fileToBase64 (OnLoad (Some header)) = Fulfilled None.
Proof.
  intros Hheader Hpayload. unfold fileToBase64. split.
  - change ("," +:+ payload) with (String ","%char payload).
    by rewrite split_on_first, split_on_whole.
  - by rewrite split_on_whole.
Qed.

Lemma fileToBase64_payload_witness :
  fileToBase64 (OnLoad (Some ("data:image/jpeg;base64" +:+ "," +:+ "QUJD")))
    = Fulfilled (Some "QUJD")
  ∧ fileToBase64 (OnLoad (Some "data:image/jpeg;base64")) = Fulfilled None.
Proof.
  apply (fileToBase64_payload "data:image/jpeg;base64" "QUJD"); reflexivity.
Defined.

(** ** From the data URL of the service back to payload and media type *)

Lemma word_char_not_semicolon (c : Ascii.ascii) :
  is_word_char c = true → not_char ";"%char c = true.
Proof.
  intros Hc. unfold not_char. destruct (Ascii.eqb_spec c ";"%char) as [->|]; [|done].
  by vm_compute in Hc.
Qed.

Lemma all_chars_impl (f g : Ascii.ascii → bool) (s : string) :
  (∀ c, f c = true → g c = true) → all_chars f s = true → all_chars g s = true.
Proof.
  intros Hfg. induction s as [|c s IH]; [done|]. cbn [all_chars].
  intros [Hc Hs]%andb_true_iff. by rewrite (Hfg c Hc), (IH Hs).
Qed.

Lemma all_chars_append (f : Ascii.ascii → bool) (a b : string) :
  all_chars f (a +:+ b) = all_chars f a && all_chars f b.
Proof.
  induction a as [|c a IH]; [done|]. rewrite append_cons. cbn [all_chars].
  by rewrite IH, andb_assoc.
Qed.

Lemma data_url_image_part (payload : string) (mime : option string) :
  data_url (image_part payload mime)
  = "data:" +:+ or_string mime "image/png" +:+ ";base64," +:+ payload.
Proof. reflexivity. Qed.

Lemma match_mime_data_url (media payload : string) :
  media ≠ EmptyString → all_chars (not_char ";"%char) media = true →
  match_mime ("data:" +:+ media +:+ ";base64," +:+ payload) = Some media.
Proof.
  intros Hne Hmedia.
  assert (Hhere : mime_here ("data:" +:+ media +:+ ";base64," +:+ payload) = Some media).
  { unfold mime_here. rewrite strip_literal_append.
    change (λ c, negb (Ascii.eqb c ";"%char)) with (not_char ";"%char).
    rewrite span_append; [|done|done].
    by destruct media. }
  change ("data:" +:+ media +:+ ";base64," +:+ payload)
    with (String "d"%char ("ata:" +:+ media +:+ ";base64," +:+ payload)) in *.
  cbn [match_mime]. by rewrite Hhere.
Qed.

(** X15. The image that [generateImages] returns as a data URL comes back out of
    it: for a media type of the form [image/] followed by word characters
    (in particular the default [image/png] of a response without media
    type), the history item built from the data URL holds the payload and
    the media type of the backend's inline part. *)
Theorem history_item_round_trip (state : ImageGenerator.t) (id : string) (timestamp : Z)
    (payload : string) (mime : option string) (word : string) :
  or_string mime "image/png" = "image/" +:+ word →
  word ≠ EmptyString →
  all_chars is_word_char word = true →
  HistoryItem.base64
    (history_item state id timestamp (data_url (image_part payload mime))) = payload
  ∧ HistoryItem.mimeType
      (history_item state id timestamp (data_url (image_part payload mime)))
    = "image/" +:+ word.
Proof.
  intros Hmedia Hne Hword. rewrite data_url_image_part, Hmedia.
  unfold history_item. cbn [HistoryItem.base64 HistoryItem.mimeType]. split.
  - rewrite append_assoc.
    change ("data:" +:+ "image/" +:+ word +:+ ";base64," +:+ payload)
      with ("data:image/" +:+ word +:+ ";base64," +:+ payload).
    unfold clean_base64. rewrite strip_literal_append.
    rewrite span_append; [|done|done].
    destruct word as [|c word]; [done|].
    by rewrite strip_literal_append.
  - rewrite match_mime_data_url.
    + cbn [or_string]. unfold truthy_string. by rewrite bool_decide_false.
    + done.
    + rewrite all_chars_append. apply andb_true_iff. split; [done|].
      by apply (all_chars_impl is_word_char), Hword; apply word_char_not_semicolon.
Qed.

Lemma history_item_round_trip_witness :
  let state := sample_component SQUARE 1024 1024 [] in
  HistoryItem.base64
    (history_item state "id1" 7 (data_url (image_part "QUFB" None))) = "QUFB"
  ∧ HistoryItem.mimeType
      (history_item state "id1" 7 (data_url (image_part "QUFB" None)))
    = "image/" +:+ "png".
Proof.
  intros state.
  apply (history_item_round_trip state "id1" 7 "QUFB" None "png");
    [reflexivity | discriminate | reflexivity].
Defined.

(** X16. Where the round trip stops: a media type whose subtype goes on with a
    character that is neither a word character nor a semicolon
    ([image/svg+xml]) is not recognised by the prefix pattern. The item then
    stores the whole data URL as its base64 field; its media type is still
    the one of the backend. *)
Theorem history_item_keeps_prefix (state : ImageGenerator.t) (id : string) (timestamp : Z)
    (payload : string) (mime : option string) (word : string) (c : Ascii.ascii)
    (tail : string) :
  or_string mime "image/png" = "image/" +:+ word +:+ String c tail →
  all_chars is_word_char word = true →
  is_word_char c = false →
  all_chars (not_char ";"%char) (String c tail) = true →
  HistoryItem.base64
    (history_item state id timestamp (data_url (image_part payload mime)))
  = data_url (image_part payload mime)
  ∧ HistoryItem.mimeType
      (history_item state id timestamp (data_url (image_part payload mime)))
    = "image/" +:+ word +:+ String c tail.
Proof.
  intros Hmedia Hword Hc Htail. rewrite data_url_image_part, Hmedia.
  unfold history_item. cbn [HistoryItem.base64 HistoryItem.mimeType]. split.
  - rewrite !append_assoc.
    change ("data:" +:+ "image/" +:+ word +:+ String c tail +:+ ";base64," +:+ payload)
      with ("data:image/" +:+ word +:+ String c (tail +:+ ";base64," +:+ payload)).
    unfold clean_base64. rewrite strip_literal_append.
    rewrite span_append; [|done|done].
    destruct word as [|x word]; [done|].
    cbn [strip_literal]. cbn [all_chars] in Htail.
    apply andb_true_iff in Htail as [Hsemi _]. unfold not_char in Hsemi.
    apply negb_true_iff in Hsemi. rewrite Ascii.eqb_sym in Hsemi. by rewrite Hsemi.
  - rewrite match_mime_data_url.
    + cbn [or_string]. unfold truthy_string. by rewrite bool_decide_false.
    + done.
    + rewrite !all_chars_append. rewrite Htail, andb_true_r.
      apply andb_true_iff. split; [done|].
      by apply (all_chars_impl is_word_char), Hword; apply word_char_not_semicolon.
Qed.

Lemma history_item_keeps_prefix_witness :
  let state := sample_component SQUARE 1024 1024 [] in
  let url := data_url (image_part "PHN2Zz4=" (Some "image/svg+xml")) in
  HistoryItem.base64 (history_item state "id1" 7 url) = url
  ∧ HistoryItem.mimeType (history_item state "id1" 7 url)
    = "image/" +:+ "svg" +:+ String "+"%char "xml".
Proof.
  intros state url.
  apply (history_item_keeps_prefix state "id1" 7 "PHN2Zz4=" (Some "image/svg+xml")
           "svg" "+"%char "xml"); reflexivity.
Defined.

(** ** The ratio recorded and the ratio sent *)

Lemma ratioStr_image_request (state : ImageGenerator.t) :
  ratioStr (image_request state)
  = if bool_decide (ImageGenerator.aspectRatio state = CUSTOM)
    then if bool_decide (ImageGenerator.customWidth state = 0
                         ∨ ImageGenerator.customHeight state = 0)
         then "1:1"
         else pretty (ImageGenerator.customWidth state) +:+ ":"
                +:+ pretty (ImageGenerator.customHeight state)
    else AspectRatio_value (ImageGenerator.aspectRatio state).
Proof.
  unfold ratioStr, image_request.
  cbn [GenerateImageOptions.aspectRatio GenerateImageOptions.width
       GenerateImageOptions.height truthy_opt_number template_opt_number].
  destruct (decide (ImageGenerator.aspectRatio state = CUSTOM)) as [Har|Har].
  - rewrite bool_decide_true by done.
    destruct (Z.eqb_spec (ImageGenerator.customWidth state) 0) as [Hw|Hw],
             (Z.eqb_spec (ImageGenerator.customHeight state) 0) as [Hh|Hh]; cbn [negb andb].
    + by rewrite bool_decide_true by auto.
    + by rewrite bool_decide_true by auto.
    + by rewrite bool_decide_true by auto.
    + by rewrite bool_decide_false by (intros [?|?]; done).
  - by rewrite bool_decide_false by done.
Qed.

(** X17. The aspect ratio that a history item records is the one that was sent
    to the backend, except for a custom ratio with a zero dimension: there
    the request carries ["1:1"] while the item records the raw dimensions
    and, for safe integers, the raw [width:height]. *)
Theorem recorded_ratio (state : ImageGenerator.t) (id : string) (timestamp : Z)
    (base64Img : string) :
  (ImageGenerator.aspectRatio state ≠ CUSTOM
   ∨ (ImageGenerator.customWidth state ≠ 0 ∧ ImageGenerator.customHeight state ≠ 0) →
   HistoryItem.aspectRatio (history_item state id timestamp base64Img)
   = ratioStr (image_request state))
  ∧ (ImageGenerator.aspectRatio state = CUSTOM →
     ImageGenerator.customWidth state = 0 ∨ ImageGenerator.customHeight state = 0 →
     ratioStr (image_request state) = "1:1"
     ∧ (safe_integer (ImageGenerator.customWidth state) →
        safe_integer (ImageGenerator.customHeight state) →
        HistoryItem.aspectRatio (history_item state id timestamp base64Img)
        = pretty (ImageGenerator.customWidth state) +:+ ":"
            +:+ pretty (ImageGenerator.customHeight state))
     ∧ HistoryItem.width (history_item state id timestamp base64Img)
       = Some (ImageGenerator.customWidth state)
     ∧ HistoryItem.height (history_item state id timestamp base64Img)
       = Some (ImageGenerator.customHeight state)).
Proof.
  rewrite ratioStr_image_request. unfold history_item.
  cbn [HistoryItem.aspectRatio HistoryItem.width HistoryItem.height].
  split.
  - intros [Har|[Hw Hh]].
    + by rewrite !bool_decide_false by done.
    + case_bool_decide; [|done].
      by rewrite bool_decide_false by (intros [?|?]; done).
  - intros Har Hzero. by rewrite !bool_decide_true by done.
Qed.

Lemma recorded_ratio_witness :
  let state := sample_component CUSTOM 0 720 [] in
  HistoryItem.aspectRatio
    (history_item (sample_component LANDSCAPE 0 720 []) "id1" 7 "x")
  = ratioStr (image_request (sample_component LANDSCAPE 0 720 []))
  ∧ ratioStr (image_request state) = "1:1"
  ∧ HistoryItem.aspectRatio (history_item state "id1" 7 "x") = "0:720".
Proof.
  intros state.
  destruct (recorded_ratio (sample_component LANDSCAPE 0 720 []) "id1" 7 "x")
    as [Hsame _].
  assert (Hne : ImageGenerator.aspectRatio (sample_component LANDSCAPE 0 720 [])
                ≠ CUSTOM) by discriminate.
  specialize (Hsame (or_introl Hne)).
  destruct (recorded_ratio state "id1" 7 "x") as [_ Hzero].
  destruct (Hzero eq_refl (or_introl eq_refl)) as (Hsent & Hrec & _).
  assert (Hw : safe_integer (ImageGenerator.customWidth state))
    by (unfold safe_integer, MAX_SAFE_INTEGER; simpl; lia).
  assert (Hh : safe_integer (ImageGenerator.customHeight state))
    by (unfold safe_integer, MAX_SAFE_INTEGER; simpl; lia).
  specialize (Hrec Hw Hh).
  vm_compute in Hrec.
  split; [exact Hsame|]. split; [exact Hsent|]. vm_compute. exact Hrec.
Defined.

(** ** [handleUpscale] *)

Lemma pretty_zero : pretty 0%Z = "0".
Proof. vm_compute. reflexivity. Qed.

Lemma ends_in_zero_not_enum (s : string) (ar : AspectRatio) :
  AspectRatio_value ar ≠ s +:+ ":" +:+ "0".
Proof.
  destruct ar; cbn [AspectRatio_value];
    repeat (destruct s as [|? s];
            [discriminate
            |rewrite append_cons; intros [= ? Hrest]; revert Hrest; try discriminate]).
Qed.

Lemma starts_with_zero_not_enum (s : string) (ar : AspectRatio) :
  AspectRatio_value ar ≠ "0" +:+ s.
Proof. rewrite append_cons. destruct ar; discriminate. Qed.

Lemma found_ratio_enum (item : HistoryItem.t) (ar : AspectRatio) :
  HistoryItem.aspectRatio item = AspectRatio_value ar → found_ratio item = ar.
Proof. intros Hitem. unfold found_ratio. rewrite Hitem. by destruct ar. Qed.

Lemma found_ratio_not_enum (item : HistoryItem.t) :
  (∀ ar, AspectRatio_value ar ≠ HistoryItem.aspectRatio item) →
  found_ratio item = SQUARE.
Proof.
  intros Hnot. unfold found_ratio, AspectRatio_values. cbn [find].
  by rewrite !bool_decide_false by apply Hnot.
Qed.

(** X18. Upscaling a history item asks again for the ratio that produced it: in
    the state that [handleUpscale] leaves, whatever state it found, the
    request has the aspect-ratio string of the request the item came from,
    the 4K tier (hence the gated model), the item's prompt, and the item's
    image as context image; with that context image there is always
    something to generate. *)
Theorem upscale_keeps_ratio (state found : ImageGenerator.t) (id : string)
    (timestamp : Z) (base64Img : string) :
  let item := history_item state id timestamp base64Img in
  let state' := handleUpscale item found in
  ratioStr (image_request state') = ratioStr (image_request state)
  ∧ GenerateImageOptions.resolution (image_request state') = RES_4K
  ∧ usePro (image_request state') = true
  ∧ GenerateImageOptions.prompt (image_request state') = ImageGenerator.prompt state
  ∧ GenerateImageOptions.contextImage (image_request state')
    = Some {| ImageData.base64 := clean_base64 base64Img;
              ImageData.mimeType := or_string (match_mime base64Img) "image/png" |}
  ∧ nothing_to_generate state' = false.
Proof.
  intros item state'. split; [|repeat (split; [done|]); apply andb_false_r].
  rewrite !ratioStr_image_request. subst state'. unfold handleUpscale.
  cbn [ImageGenerator.aspectRatio ImageGenerator.customWidth
       ImageGenerator.customHeight].
  subst item. unfold history_item.
  cbn [HistoryItem.width HistoryItem.height HistoryItem.aspectRatio].
  destruct (decide (ImageGenerator.aspectRatio state = CUSTOM)) as [Har|Har].
  - rewrite !(bool_decide_true (ImageGenerator.aspectRatio state = CUSTOM)) by done.
    cbn [truthy_opt_number].
    destruct (Z.eqb_spec (ImageGenerator.customWidth state) 0) as [Hw|Hw];
      [|destruct (Z.eqb_spec (ImageGenerator.customHeight state) 0) as [Hh|Hh]];
      cbn [negb andb].
    + rewrite found_ratio_not_enum.
      * rewrite bool_decide_false by done. by rewrite bool_decide_true by auto.
      * intros ar. cbn [HistoryItem.aspectRatio]. rewrite Hw, pretty_zero.
        apply starts_with_zero_not_enum.
    + rewrite found_ratio_not_enum.
      * rewrite bool_decide_false by done. by rewrite bool_decide_true by auto.
      * intros ar. cbn [HistoryItem.aspectRatio]. rewrite Hh, pretty_zero.
        apply ends_in_zero_not_enum.
    + rewrite bool_decide_true by done.
      by rewrite !bool_decide_false by (intros [?|?]; done).
  - rewrite !(bool_decide_false (ImageGenerator.aspectRatio state = CUSTOM)) by done.
    cbn [truthy_opt_number andb].
    rewrite (found_ratio_enum _ (ImageGenerator.aspectRatio state)) by done.
    by rewrite bool_decide_false by done.
Qed.

(** ** [handleGenerate] of the image component, end to end *)




Lemma build_items_no_folder (atob : string → js_error + string) (stamps : nat → Stamp.t)
    (state : ImageGenerator.t) (i : nat) (base64Images : list string) :
  ImageGenerator.dirHandle state = None →
  build_items atob stamps state i base64Images
  = ([], inr (imap (λ j base64Img,
                      history_item state (Stamp.id (stamps (i + j)%nat))
                        (Stamp.timestamp (stamps (i + j)%nat)) base64Img)
                   base64Images)).
Proof.
  intros Hdir. revert i. induction base64Images as [|url later IH]; intros i; [done|].
  cbn [build_items imap]. rewrite Hdir, (IH (S i)), Nat.add_0_r. do 3 f_equal.
  apply imap_ext. intros j x _. simpl. by rewrite Nat.add_succ_r.
Qed.

(** X20. A generation that succeeds, with no folder selected: when every call is
    answered with an image, [handleGenerate] ends with one new item per
    call, in call order, as the current batch and in front of the old
    history; the item of a call is built from the data URL of its own
    response. *)
Theorem successful_batch_recorded (atob : string → js_error + string)
    (stamps : nat → Stamp.t) (w : world) (state : ImageGenerator.t) :
  nothing_to_generate state = false →
  ImageGenerator.dirHandle state = None →
  arrivals_ok (Z.to_nat (ImageGenerator.outputCount state)) (image_replies w) →
  length (image_replies w) = Z.to_nat (ImageGenerator.outputCount state) →
  Forall (λ a, ∃ url, call_result a.2 = Fulfilled url) (image_replies w) →
  ∃ newItems,
    handleGenerate_image atob stamps w state
    = (with_generation false newItems (newItems ++ ImageGenerator.history state)
         VIEW_CURRENT state, [])
    ∧ length newItems = Z.to_nat (ImageGenerator.outputCount state)
    ∧ (∀ i r, (i, r) ∈ image_replies w →
         ∃ url, call_result r = Fulfilled url
                ∧ newItems !! i
                  = Some (history_item state (Stamp.id (stamps i))
                            (Stamp.timestamp (stamps i)) url)).
Proof.
  intros Hguard Hdir Hok Hlen Hall.
  destruct (batch_fulfilled w (ImageGenerator.outputCount state) (image_request state)
              Hok Hlen Hall) as (urls & Hres & Hlen' & Hurls).
  eexists. unfold handleGenerate_image, image_handleGenerate.
  rewrite Hguard. unfold generation_settled. rewrite Hres.
  rewrite build_items_no_folder by done. split; [reflexivity|].
  split; [by rewrite length_imap|].
  intros i r Hin. destruct (Hurls i r Hin) as (url & Hr & Hi).
  exists url. split; [done|]. by rewrite list_lookup_imap, Hi.
Qed.

Lemma successful_batch_recorded_witness :
  let state := sample_component SQUARE 1024 1024 [] in
  let w := sample_world None
             [(1%nat, Resolves (response_of [[image_part "QkJC" None]]));
              (0%nat, Resolves (response_of [[image_part "QUFB" (Some "image/jpeg")]]))] [] in
  let stamps := λ i : nat, {| Stamp.id := pretty i; Stamp.timestamp := 7;
                              Stamp.filename := "f.png" |} in
  ∃ newItems,
    handleGenerate_image (λ s, inr s) stamps w state
    = (with_generation false newItems (newItems ++ ImageGenerator.history state)
         VIEW_CURRENT state, [])
    ∧ length newItems = Z.to_nat (ImageGenerator.outputCount state)
    ∧ (∀ i r, (i, r) ∈ image_replies w →
         ∃ url, call_result r = Fulfilled url
                ∧ newItems !! i
                  = Some (history_item state (Stamp.id (stamps i))
                            (Stamp.timestamp (stamps i)) url)).
Proof.
  intros state w stamps.
  apply (successful_batch_recorded (λ s, inr s) stamps w state).
  - reflexivity.
  - reflexivity.
  - split; apply (bool_decide_unpack _); vm_compute; exact I.
  - reflexivity.
  - repeat constructor; eexists; reflexivity.
Defined.

(** With a folder selected the loop saves the images it can decode and
    stops at the first it cannot. *)
Lemma build_items_stops (atob : string → js_error + string)
    (stamps : nat → Stamp.t) (state : ImageGenerator.t) (folder : DirHandle.t)
    (before decoded : list string) (bad : string) (e : js_error)
    (after : list string) (i : nat) :
  ImageGenerator.dirHandle state = Some folder →
  Forall2 (λ url bytes, atob (clean_base64 url) = inr bytes) before decoded →
  atob (clean_base64 bad) = inl e →
  build_items atob stamps state i (before ++ bad :: after)
  = (imap (λ k saved,
             SaveToDirectory (Stamp.filename (stamps (i + k)%nat)) saved.2
               (HistoryItem.mimeType
                  (history_item state (Stamp.id (stamps (i + k)%nat))
                     (Stamp.timestamp (stamps (i + k)%nat)) saved.1)))
          (zip before decoded),
     inl e).
Proof.
  intros Hdir Hdecoded Hbad. revert i.
  induction Hdecoded as [|url bytes before decoded Hurl _ IH]; intros i.
  - cbn [app build_items]. rewrite Hdir. cbn [history_item HistoryItem.base64].
    by rewrite Hbad.
  - cbn [app build_items]. rewrite Hdir.
    cbn [history_item HistoryItem.base64 HistoryItem.mimeType].
    rewrite Hurl, IH. cbn [zip zip_with imap fst snd].
    rewrite Nat.add_0_r. do 2 f_equal.
    apply imap_ext. intros k saved _. simpl. by rewrite Nat.add_succ_r.
Qed.

(** X21. With a folder selected, an image whose stored base64 [atob] cannot
    decode costs the whole batch: although [generateImages] has succeeded,
    [handleGenerate] ends as for a failed generation (history as it was,
    empty current batch, the error logged, an alert), after saving the
    files of the images before the undecodable one, each under its own
    name with its decoded bytes and media type, and no other file. *)
Theorem undecodable_image_drops_batch (atob : string → js_error + string)
    (stamps : nat → Stamp.t) (w : world) (state : ImageGenerator.t)
    (folder : DirHandle.t) (before decoded : list string) (bad : string)
    (e : js_error) (after : list string) :
  nothing_to_generate state = false →
  ImageGenerator.dirHandle state = Some folder →
  result (generateImages w (ImageGenerator.outputCount state) (image_request state))
    = Fulfilled (before ++ bad :: after) →
  Forall2 (λ url bytes, atob (clean_base64 url) = inr bytes) before decoded →
  atob (clean_base64 bad) = inl e →
  handleGenerate_image atob stamps w state
  = (with_generation false [] (ImageGenerator.history state) VIEW_CURRENT state,
     imap (λ i saved,
             SaveToDirectory (Stamp.filename (stamps i)) saved.2
               (HistoryItem.mimeType
                  (history_item state (Stamp.id (stamps i))
                     (Stamp.timestamp (stamps i)) saved.1)))
          (zip before decoded)
       ++ [UiConsoleError e; Alert GENERATION_FAILED]).
Proof.
  intros Hguard Hdir Hres Hdecoded Hbad.
  unfold handleGenerate_image, image_handleGenerate.
  rewrite Hguard. unfold generation_settled.
  rewrite Hres, (build_items_stops atob stamps state folder before decoded bad e after 0
                   Hdir Hdecoded Hbad).
  reflexivity.
Qed.

Lemma undecodable_image_drops_batch_witness :
  let w := sample_world None
             [(0%nat, Resolves (response_of [[image_part "QUFB" None]]));
              (1%nat, Resolves (response_of
                                  [[image_part "PHN2Zz4=" (Some "image/svg+xml")]]))] [] in
  handleGenerate_image sample_atob sample_stamps w sample_saving_component
  = (with_generation false [] [] VIEW_CURRENT sample_saving_component,
     [SaveToDirectory "0.png" "AAA" "image/png";
      UiConsoleError (Error "InvalidCharacterError");
      Alert GENERATION_FAILED]).
Proof.
  intros w.
  apply (undecodable_image_drops_batch sample_atob sample_stamps w
           sample_saving_component {| DirHandle.name := "out" |}
           ["data:image/png;base64,QUFB"] ["AAA"]
           "data:image/svg+xml;base64,PHN2Zz4=" (Error "InvalidCharacterError") []).
  - reflexivity.
  - reflexivity.
  - vm_compute. reflexivity.
  - repeat constructor.
  - vm_compute. reflexivity.
Defined.

(** ** [saveToDirectory] *)

Lemma save_steps_not_rejected (steps : list fs_step) (replies : list (reply unit))
    (e : js_error) :
  fs_result (save_steps steps replies) ≠ Rejected e.
Proof.
  revert replies. induction steps as [|step more IH]; intros replies; [done|].
  destruct replies as [|[u|e'] later]; cbn [save_steps fs_result]; [done| |done].
  apply IH.
Qed.

Lemma save_steps_true (steps : list fs_step) (replies : list (reply unit)) :
  fs_result (save_steps steps replies) = Fulfilled true
  ↔ ∃ later, replies = replicate (length steps) (Resolves ()) ++ later.
Proof.
  revert replies. induction steps as [|step more IH]; intros replies.
  - split; [intros _; by exists replies | done].
  - destruct replies as [|[[]|e] later]; cbn [save_steps fs_result length replicate app].
    + split; [done | by intros [? ?]].
    + rewrite IH. split; intros [later' Heq]; exists later'; by simplify_eq.
    + split; [done | by intros [? ?]].
Qed.

Lemma save_steps_false (steps : list fs_step) (replies : list (reply unit)) :
  fs_result (save_steps steps replies) = Fulfilled false
  ↔ ∃ done e later,
      replies = replicate done (Resolves ()) ++ Rejects e :: later
      ∧ (done < length steps)%nat
      ∧ fs_logged (save_steps steps replies) = [e]
      ∧ fs_steps (save_steps steps replies) = take (S done) steps.
Proof.
  revert replies. induction steps as [|step more IH]; intros replies.
  - split; [done|]. intros (k & e & later & _ & Hlt & _). simpl in Hlt. lia.
  - destruct replies as [|[[]|e] later];
      cbn [save_steps fs_result fs_logged fs_steps length].
    + split; [done|]. intros ([|k] & e & later & Heq & _); done.
    + rewrite IH. split.
      * intros (k & e & later' & -> & Hlt & Hlog & Hsteps).
        exists (S k), e, later'. cbn [replicate app take].
        split; [done|]. split; [lia|]. split; [done|]. by rewrite Hsteps.
      * intros ([|k] & e & later' & Heq & Hlt & Hlog & Hsteps);
          cbn [replicate app take] in *; [done|].
        exists k, e, later'. split; [by simplify_eq|]. split; [lia|].
        split; [done|]. by simplify_eq.
    + split; [|done]. intros _. exists 0%nat, e, later.
      split; [done|]. split; [lia|]. done.
Qed.

(** X22. Saving never throws. The promise of [saveToDirectory] is never rejected;
    it resolves with [true] exactly when all four calls succeed; it resolves
    with [false] exactly when one of them fails, and then that one error is
    logged and the calls after the failing one are not made. *)
Theorem saveToDirectory_never_rejects (replies : list (reply unit))
    (filename blob : string) :
  (∀ e, fs_result (saveToDirectory replies filename blob) ≠ Rejected e)
  ∧ (fs_result (saveToDirectory replies filename blob) = Fulfilled true
     ↔ ∃ later, replies = replicate 4 (Resolves ()) ++ later)
  ∧ (fs_result (saveToDirectory replies filename blob) = Fulfilled false
     ↔ ∃ done e later,
         replies = replicate done (Resolves ()) ++ Rejects e :: later
         ∧ (done < 4)%nat
         ∧ fs_logged (saveToDirectory replies filename blob) = [e]
         ∧ fs_steps (saveToDirectory replies filename blob)
           = take (S done)
               [GetFileHandle filename; CreateWritable; WriteBlob blob; CloseWritable]).
Proof.
  unfold saveToDirectory. split; [|split].
  - intros e. apply save_steps_not_rejected.
  - apply save_steps_true.
  - apply save_steps_false.
Qed.

Lemma saveToDirectory_never_rejects_witness :
  fs_result (saveToDirectory [Resolves (); Resolves (); Resolves (); Resolves ()]
               "a.png" "AAA") = Fulfilled true
  ∧ fs_result (saveToDirectory [Resolves (); Rejects (ServiceFailure "denied");
                                Resolves (); Resolves ()] "a.png" "AAA")
    = Fulfilled false.
Proof.
  split.
  - apply (proj1 (proj2 (saveToDirectory_never_rejects
                           [Resolves (); Resolves (); Resolves (); Resolves ()]
                           "a.png" "AAA"))).
    by exists [].
  - apply (proj2 (proj2 (saveToDirectory_never_rejects
                           [Resolves (); Rejects (ServiceFailure "denied");
                            Resolves (); Resolves ()] "a.png" "AAA"))).
    exists 1%nat, (ServiceFailure "denied"), [Resolves (); Resolves ()].
    split; [reflexivity|]. split; [lia|]. split; reflexivity.
Defined.
